(** * litevideo frame DMA: slots, slot arbitration and the transfer engine

    Shallow embedding of [litevideo/input/dma.py] (classes [_Slot],
    [_SlotArray] and [DMA]) as a synchronous machine: one call of [step] is
    one clock edge of the [sys] domain.  Registers are fields of [state];
    combinatorial signals are functions of the registers and of the inputs
    of the cycle.

    Signals of [w] bits are integers in [0, 2^w) with the wrap-around
    written out ([wrap]).  The CSR registers are seen through their
    [storage] view, which is all the gateware reads; the consumer (the CPU
    on the CSR bus) is an input of the machine that may write one register
    per cycle. *)

From Stdlib Require Import ZArith Lia Bool.
From stdpp Require Import base tactics option list numbers.

Local Open Scope Z_scope.

(** * The design *)

(** ** Parameters of the design *)

(** [dram_port.aw] and [dram_port.dw]: address and data width in bits. *)
Record dram_port := { aw : nat; dw : nat }.

Definition wrap (w : nat) (x : Z) : Z := x mod 2 ^ Z.of_nat w.

(** ** _Slot *)

(** [_status.storage] (2 bits) and [_address.storage] ([addr_bits] bits).
    Slot status: EMPTY=0 LOADED=1 PENDING=2. *)
Record Slot := { status_storage : Z; address_storage : Z }.

Definition EMPTY : Z := 0.
Definition LOADED : Z := 1.
Definition PENDING : Z := 2.

(** [self.address.eq(self._address.storage)] *)
Definition Slot_address (s : Slot) : Z := address_storage s.

(** [self.address_valid.eq(self._status.storage[0])] *)
Definition Slot_address_valid (s : Slot) : bool := Z.testbit (status_storage s) 0.

(** Device-side write port of the two registers:
    [_status.dat_w.eq(2)], [_status.we.eq(address_done)],
    [_address.dat_w.eq(address_reached)], [_address.we.eq(address_done)]. *)
Definition Slot_sync (address_done : bool) (address_reached : Z) (s : Slot) : Slot :=
  {| status_storage := if address_done then 2 else status_storage s;
     address_storage := if address_done then address_reached else address_storage s |}.

(** ** The consumer: one CSR bus write per cycle *)

Inductive csr_op :=
| WrStatus (n : nat) (v : Z)      (* slot<n>_status   <- v *)
| WrAddress (n : nat) (v : Z)     (* slot<n>_address  <- v *)
| WrFrameSize (v : Z).            (* frame_size       <- v *)

Definition arm (n : nat) : csr_op := WrStatus n LOADED.
Definition disarm (n : nat) : csr_op := WrStatus n EMPTY.

(** The effect of the bus write of a cycle on the registers of slot [n]. *)
Definition Slot_csr (p : dram_port) (op : option csr_op) (n : nat) (s : Slot) : Slot :=
  match op with
  | Some (WrStatus m v) =>
      if Nat.eqb m n
      then {| status_storage := wrap 2 v; address_storage := address_storage s |}
      else s
  | Some (WrAddress m v) =>
      if Nat.eqb m n
      then {| status_storage := status_storage s; address_storage := wrap (aw p) v |}
      else s
  | _ => s
  end.

Definition csr_slots (p : dram_port) (op : option csr_op) (l : list Slot) : list Slot :=
  imap (Slot_csr p op) l.

Definition csr_frame_size (p : dram_port) (op : option csr_op) (fs : Z) : Z :=
  match op with
  | Some (WrFrameSize v) => wrap (aw p) v
  | _ => fs
  end.

(** ** _SlotArray *)

Definition no_slot : Slot := {| status_storage := 0; address_storage := 0 |}.

(** [Array(...)[current_slot]].  In the states of an execution
    [current_slot] is always the index of a slot ([wf_current_slot]);
    outside of the list the model reads an empty slot. *)
Definition Array_get (l : list Slot) (i : nat) : Slot := default no_slot (l !! i).

(** The list of [If(slot.address_valid, current_slot.eq(n))] over
    [reversed(list(enumerate(slots)))], executed in order: a later
    assignment overrides an earlier one. *)
Definition arbitrate (l : list Slot) (current_slot : nat) : nat :=
  foldl (fun cur ns => if Slot_address_valid ns.2 then ns.1 else cur)
        current_slot (reverse (imap pair l)).

(** [slot.address_reached.eq(self.address_reached)] and
    [slot.address_done.eq(self.address_done & (current_slot == n))]. *)
Definition SlotArray_sync (address_done : bool) (address_reached : Z)
    (current_slot : nat) (l : list Slot) : list Slot :=
  imap (fun n => Slot_sync (address_done && Nat.eqb current_slot n) address_reached) l.

(** ** DMA *)

Inductive fsm_state := WAIT_SOF | TRANSFER_PIXELS | EOF.

Record state := {
  fsm : fsm_state;
  current_address : Z;
  mwords_remaining : Z;
  current_slot : nat;
  slots : list Slot;
  frame_size : Z
}.

(** Inputs of one cycle: the [frame] stream endpoint, the write transport
    ([_bus_accessor.sink.ready], [dram_port.wdata.valid]) and the CSR bus. *)
Record inputs := {
  frame_valid : bool;
  frame_sof : bool;
  frame_pixels : Z;
  sink_ready : bool;
  wdata_valid : bool;
  bus : option csr_op
}.

(** Combinatorial signals driven by the control FSM. *)
Record signals := {
  reset_words : bool;
  count_word : bool;
  frame_ready : bool;
  sink_valid : bool;
  address_done : bool;
  next_state : fsm_state
}.

Definition SlotArray_address (st : state) : Z :=
  Slot_address (Array_get (slots st) (current_slot st)).

Definition SlotArray_address_valid (st : state) : bool :=
  Slot_address_valid (Array_get (slots st) (current_slot st)).

(** [last_word.eq(mwords_remaining == 1)] *)
Definition last_word (st : state) : bool := mwords_remaining st =? 1.

Definition control (st : state) (i : inputs) : signals :=
  match fsm st with
  | WAIT_SOF =>
      {| reset_words := true;
         count_word := false;
         frame_ready := negb (SlotArray_address_valid st) || negb (frame_sof i);
         sink_valid := false;
         address_done := false;
         next_state :=
           if SlotArray_address_valid st && frame_sof i && frame_valid i
           then TRANSFER_PIXELS else WAIT_SOF |}
  | TRANSFER_PIXELS =>
      {| reset_words := false;
         count_word := frame_valid i && sink_ready i;
         frame_ready := sink_ready i;
         sink_valid := frame_valid i;
         address_done := false;
         next_state :=
           if frame_valid i && sink_ready i && last_word st
           then EOF else TRANSFER_PIXELS |}
  | EOF =>
      {| reset_words := false;
         count_word := false;
         frame_ready := false;
         sink_valid := false;
         address_done := negb (wdata_valid i);
         next_state := if negb (wdata_valid i) then WAIT_SOF else EOF |}
  end.

(** [change_slot.eq(~self.address_valid | self.address_done)] *)
Definition change_slot (st : state) (i : inputs) : bool :=
  negb (SlotArray_address_valid st) || address_done (control st i).

(** [memory_word] is the concatenation ([Cat]) of [bus_dw//16] copies of
    [frame.pixels], truncated to [bus_dw] bits. *)
Definition memory_word (p : dram_port) (i : inputs) : Z :=
  if (dw p / 16 =? 0)%nat then 0 else wrap (dw p) (frame_pixels i).

(** A word handed to the write transport in this cycle:
    [sink.valid & sink.ready], at [sink.address = current_address]. *)
Definition write_of (p : dram_port) (st : state) (i : inputs) : option (Z * Z) :=
  if sink_valid (control st i) && sink_ready i
  then Some (current_address st, memory_word p i) else None.

(** A stream word taken from upstream in this cycle. *)
Definition consumed (st : state) (i : inputs) : bool :=
  frame_valid i && frame_ready (control st i).

(** One clock edge.  The device-side register writes come first and the
    CSR bus write of the same cycle is applied last, as in LiteX's
    [CSRStorage] with [write_from_dev], where the bus write is the later
    assignment.  The properties below that concern one register in one
    cycle are stated for cycles without a bus write to it, or on the
    device-side update alone. *)
Definition step (p : dram_port) (st : state) (i : inputs) : state :=
  let c := control st i in
  {| fsm := next_state c;
     current_address :=
       if reset_words c then SlotArray_address st
       else if count_word c then wrap (aw p) (current_address st + 1)
       else current_address st;
     mwords_remaining :=
       if reset_words c then frame_size st
       else if count_word c then wrap (aw p) (mwords_remaining st - 1)
       else mwords_remaining st;
     current_slot :=
       if change_slot st i then arbitrate (slots st) (current_slot st)
       else current_slot st;
     slots :=
       csr_slots p (bus i)
         (SlotArray_sync (address_done c) (current_address st)
                         (current_slot st) (slots st));
     frame_size := csr_frame_size p (bus i) (frame_size st) |}.

(** State after reset, for [nslots] slots. *)
Definition reset (nslots : nat) : state :=
  {| fsm := WAIT_SOF;
     current_address := 0;
     mwords_remaining := 0;
     current_slot := 0;
     slots := replicate nslots no_slot;
     frame_size := 0 |}.

Fixpoint run (p : dram_port) (st : state) (ins : list inputs) : state :=
  match ins with
  | [] => st
  | i :: ins => run p (step p st i) ins
  end.

(** The cycles of a run: the state at the start of each cycle with the
    inputs of that cycle. *)
Fixpoint cycles (p : dram_port) (st : state) (ins : list inputs) : list (state * inputs) :=
  match ins with
  | [] => []
  | i :: ins => (st, i) :: cycles p (step p st i) ins
  end.

Definition writes (p : dram_port) (st : state) (ins : list inputs) : list (Z * Z) :=
  omap (fun c => write_of p c.1 c.2) (cycles p st ins).

(** States of executions from reset. *)
Inductive reachable (p : dram_port) (nslots : nat) : state -> Prop :=
| reachable_reset : reachable p nslots (reset nslots)
| reachable_step st i : reachable p nslots st -> reachable p nslots (step p st i).

(** Stimuli used in the examples. *)
Definition idle : inputs :=
  {| frame_valid := false; frame_sof := false; frame_pixels := 0;
     sink_ready := true; wdata_valid := false; bus := None |}.

Definition cpu (op : csr_op) : inputs :=
  {| frame_valid := false; frame_sof := false; frame_pixels := 0;
     sink_ready := true; wdata_valid := false; bus := Some op |}.

Definition pixel (sof : bool) (data : Z) : inputs :=
  {| frame_valid := true; frame_sof := sof; frame_pixels := data;
     sink_ready := true; wdata_valid := false; bus := None |}.

Definition port32 : dram_port := {| aw := 32; dw := 32 |}.

(** ** Well-formed states *)

Definition in_range (w : nat) (x : Z) : Prop := 0 <= x < 2 ^ Z.of_nat w.

Definition Slot_wf (p : dram_port) (s : Slot) : Prop :=
  in_range 2 (status_storage s) /\ in_range (aw p) (address_storage s).

Record wf (p : dram_port) (nslots : nat) (st : state) : Prop := {
  wf_length : length (slots st) = nslots;
  wf_current_slot : (current_slot st < nslots)%nat;
  wf_current_address : in_range (aw p) (current_address st);
  wf_mwords_remaining : in_range (aw p) (mwords_remaining st);
  wf_frame_size : in_range (aw p) (frame_size st);
  wf_slots : Forall (Slot_wf p) (slots st);
  wf_EOF : fsm st = EOF -> mwords_remaining st = 0
}.

(** ** Who writes the slot registers *)

(** The bus write of the cycle targets the status register of slot [n]. *)
Definition writes_status (n : nat) (i : inputs) : bool :=
  match bus i with
  | Some (WrStatus m _) => Nat.eqb m n
  | _ => false
  end.

(** ** Frame transfers *)

(** The cycle that leaves WAIT_SOF: a valid current slot, start of frame
    and valid data. *)
Definition starts (st : state) (i : inputs) : Prop :=
  fsm st = WAIT_SOF /\ next_state (control st i) = TRANSFER_PIXELS.

(** The engine is busy with one transfer during all the cycles of [ins]. *)
Definition busy (p : dram_port) (st : state) (ins : list inputs) : Prop :=
  Forall (fun c => fsm c.1 <> WAIT_SOF) (cycles p st ins).

(** The run [ins] takes the transfer in progress in [st] to its completion
    and not further. *)
Definition completes (p : dram_port) (st : state) (ins : list inputs) : Prop :=
  busy p st ins /\ fsm (run p st ins) = WAIT_SOF.

Definition addresses (p : dram_port) (st : state) (ins : list inputs) : list Z :=
  (writes p st ins).*1.

Definition frame_addresses (w : nat) (base count : Z) : list Z :=
  (fun k => wrap w (base + k)) <$> seqZ 0 count.

(** ** Writes and the status of the current slot *)

(** The consumer leaves the status register of the current slot alone in
    the cycles that start or continue a transfer. *)
Definition undisturbed (st : state) (i : inputs) : Prop :=
  next_state (control st i) = TRANSFER_PIXELS ->
  writes_status (current_slot st) i = false.

(** ** Scenarios *)

Definition with_bus (op : csr_op) (i : inputs) : inputs :=
  {| frame_valid := frame_valid i; frame_sof := frame_sof i;
     frame_pixels := frame_pixels i; sink_ready := sink_ready i;
     wdata_valid := wdata_valid i; bus := Some op |}.

(** Three slots, a frame of 4 words, slot 0 armed at 0x1000. *)
Definition scenario_setup : list inputs :=
  [cpu (WrFrameSize 4); cpu (WrAddress 0 0x1000); cpu (arm 0)].

(** The words A, B, C, D of a frame.  The first word is on the stream for
    two cycles: [frame.ready] is low in the cycle that starts the
    transfer. *)
Definition scenario_start : inputs := pixel true 0xA.
Definition scenario_words : list inputs :=
  [pixel true 0xA; pixel false 0xB; pixel false 0xC; pixel false 0xD].

Definition scenario_armed : state := run port32 (reset 3) scenario_setup.
Definition scenario_EOF : state :=
  run port32 (step port32 scenario_armed scenario_start) scenario_words.

(** A frame of 2 words at the top of the address space. *)
Definition top_setup : list inputs :=
  [cpu (WrFrameSize 2); cpu (WrAddress 0 0xFFFFFFFF); cpu (arm 0)].
Definition top_words : list inputs := [pixel true 1; pixel false 2; idle].

(** The frame size register left at its reset value 0. *)
Definition zero_setup : list inputs := [cpu (WrAddress 0 0x1000); cpu (arm 0)].
Definition port3 : dram_port := {| aw := 3; dw := 32 |}.

(** Slots 0 and 2 armed, slot 1 empty, frames of one word. *)
Definition arbitration_setup : list inputs :=
  [cpu (WrFrameSize 1); cpu (arm 0); cpu (arm 2); idle].

(** ** Further notions on executions of the engine *)

(** The consumer does not write the status register of the current slot
    in this cycle. *)
Definition quiet (st : state) (i : inputs) : Prop :=
  writes_status (current_slot st) i = false.

(** The memory words of the stream words taken from upstream, in order. *)
Definition consumed_words (p : dram_port) (st : state) (ins : list inputs) : list Z :=
  omap (fun c => if consumed c.1 c.2 then Some (memory_word p c.2) else None)
       (cycles p st ins).

(** The inputs of a cycle with another start-of-frame flag. *)
Definition with_sof (b : bool) (i : inputs) : inputs :=
  {| frame_valid := frame_valid i; frame_sof := b;
     frame_pixels := frame_pixels i; sink_ready := sink_ready i;
     wdata_valid := wdata_valid i; bus := bus i |}.

(** A cycle that commits a word when the engine is in TRANSFER_PIXELS. *)
Definition commits (i : inputs) : Prop := frame_valid i && sink_ready i = true.

(** Slot 0 of a port with 3 address bits armed, frame size 0; a frame
    of 8 words and the cycle that drains the transport. *)
Definition zero_armed : state := run port3 (reset 2) [cpu (arm 0)].
Definition zero_words : list inputs :=
  pixel true 1 :: replicate 7 (pixel false 2) ++ [idle].

(** ** DMA_poll *)

(** The variant of the engine with a single buffer: its registers, and the
    CSR registers [_frame_size], [_start_address], [address_valid] and
    [_dma_go] seen through [storage] and [re].  The read-back register
    [_current_address] is an output only and is left out. *)
Record poll_state := {
  poll_fsm : fsm_state;
  poll_current_address : Z;
  poll_mwords_remaining : Z;
  last_count_snapshot_r : bool;
  last_count_holding : Z;
  dma_go : bool;
  dma_go_re : bool;
  poll_frame_size : Z;
  start_address : Z;
  address_valid : bool
}.

Inductive poll_csr_op :=
| PollFrameSize (v : Z)
| PollStartAddress (v : Z)
| PollAddressValid (v : Z)
| PollDmaGo (v : Z).

Record poll_inputs := {
  pframe_valid : bool;
  pframe_sof : bool;
  pframe_pixels : Z;
  psink_ready : bool;
  pwdata_valid : bool;
  pbus : option poll_csr_op
}.

Record poll_signals := {
  poll_reset_words : bool;
  poll_count_word : bool;
  poll_frame_ready : bool;
  poll_sink_valid : bool;
  last_count_snapshot : bool;
  dma_running : bool;
  poll_next_state : fsm_state
}.

(** [last_word.eq(mwords_remaining == 1)] *)
Definition poll_last_word (s : poll_state) : bool := poll_mwords_remaining s =? 1.

Definition poll_control (s : poll_state) (i : poll_inputs) : poll_signals :=
  match poll_fsm s with
  | WAIT_SOF =>
      {| poll_reset_words := true;
         poll_count_word := false;
         poll_frame_ready := negb (address_valid s) || negb (pframe_sof i);
         poll_sink_valid := false;
         last_count_snapshot := false;
         dma_running := false;
         poll_next_state :=
           if address_valid s && pframe_sof i && pframe_valid i && dma_go s
           then TRANSFER_PIXELS else WAIT_SOF |}
  | TRANSFER_PIXELS =>
      {| poll_reset_words := false;
         poll_count_word := pframe_valid i && psink_ready i;
         poll_frame_ready := psink_ready i;
         poll_sink_valid := pframe_valid i;
         last_count_snapshot := false;
         dma_running := true;
         poll_next_state :=
           if pframe_valid i && psink_ready i && poll_last_word s
           then EOF else TRANSFER_PIXELS |}
  | EOF =>
      {| poll_reset_words := false;
         poll_count_word := false;
         poll_frame_ready := false;
         poll_sink_valid := false;
         last_count_snapshot := negb (pwdata_valid i);
         dma_running := false;
         poll_next_state := if negb (pwdata_valid i) then WAIT_SOF else EOF |}
  end.

(** The stream and transport inputs of a cycle, as inputs of [DMA]. *)
Definition poll_in (i : poll_inputs) : inputs :=
  {| frame_valid := pframe_valid i; frame_sof := pframe_sof i;
     frame_pixels := pframe_pixels i; sink_ready := psink_ready i;
     wdata_valid := pwdata_valid i; bus := None |}.

Definition poll_write_of (p : dram_port) (s : poll_state) (i : poll_inputs)
    : option (Z * Z) :=
  if poll_sink_valid (poll_control s i) && psink_ready i
  then Some (poll_current_address s, memory_word p (poll_in i)) else None.

(** One clock edge of [DMA_poll].  [_dma_go.re] is the strobe of a bus
    write to [_dma_go], one cycle after the write. *)
Definition poll_step (p : dram_port) (s : poll_state) (i : poll_inputs) : poll_state :=
  let c := poll_control s i in
  {| poll_fsm := poll_next_state c;
     poll_current_address :=
       if poll_reset_words c then start_address s
       else if poll_count_word c then wrap (aw p) (poll_current_address s + 1)
       else poll_current_address s;
     poll_mwords_remaining :=
       if poll_reset_words c then poll_frame_size s
       else if poll_count_word c then wrap (aw p) (poll_mwords_remaining s - 1)
       else poll_mwords_remaining s;
     last_count_snapshot_r := last_count_snapshot c;
     last_count_holding :=
       if last_count_snapshot c && negb (last_count_snapshot_r s)
       then poll_current_address s else last_count_holding s;
     dma_go :=
       if dma_go_re s then true
       else if poll_last_word s then false
       else dma_go s;
     dma_go_re := match pbus i with Some (PollDmaGo _) => true | _ => false end;
     poll_frame_size :=
       match pbus i with
       | Some (PollFrameSize v) => wrap (aw p) v
       | _ => poll_frame_size s
       end;
     start_address :=
       match pbus i with
       | Some (PollStartAddress v) => wrap (aw p) v
       | _ => start_address s
       end;
     address_valid :=
       match pbus i with
       | Some (PollAddressValid v) => Z.testbit v 0
       | _ => address_valid s
       end |}.

Definition poll_reset : poll_state :=
  {| poll_fsm := WAIT_SOF; poll_current_address := 0; poll_mwords_remaining := 0;
     last_count_snapshot_r := false; last_count_holding := 0;
     dma_go := false; dma_go_re := false;
     poll_frame_size := 0; start_address := 0; address_valid := false |}.

Fixpoint poll_run (p : dram_port) (s : poll_state) (ins : list poll_inputs) : poll_state :=
  match ins with
  | [] => s
  | i :: ins => poll_run p (poll_step p s i) ins
  end.

Fixpoint poll_cycles (p : dram_port) (s : poll_state) (ins : list poll_inputs)
    : list (poll_state * poll_inputs) :=
  match ins with
  | [] => []
  | i :: ins => (s, i) :: poll_cycles p (poll_step p s i) ins
  end.

Definition poll_writes (p : dram_port) (s : poll_state) (ins : list poll_inputs)
    : list (Z * Z) :=
  omap (fun c => poll_write_of p c.1 c.2) (poll_cycles p s ins).

Inductive poll_reachable (p : dram_port) : poll_state -> Prop :=
| poll_reachable_reset : poll_reachable p poll_reset
| poll_reachable_step s i :
    poll_reachable p s -> poll_reachable p (poll_step p s i).

Definition poll_starts (s : poll_state) (i : poll_inputs) : Prop :=
  poll_fsm s = WAIT_SOF /\ poll_next_state (poll_control s i) = TRANSFER_PIXELS.

Definition poll_busy (p : dram_port) (s : poll_state) (ins : list poll_inputs) : Prop :=
  Forall (fun c => poll_fsm c.1 <> WAIT_SOF) (poll_cycles p s ins).

Definition poll_completes (p : dram_port) (s : poll_state) (ins : list poll_inputs) : Prop :=
  poll_busy p s ins /\ poll_fsm (poll_run p s ins) = WAIT_SOF.

(** The address generator and the FSM of [DMA_poll] in [s] are in the
    state of those of [DMA] in [st]. *)
Definition same_generator (s : poll_state) (st : state) : Prop :=
  fsm st = poll_fsm s /\
  current_address st = poll_current_address s /\
  mwords_remaining st = poll_mwords_remaining s.

Definition poll_view (s : poll_state) : state :=
  {| fsm := poll_fsm s;
     current_address := poll_current_address s;
     mwords_remaining := poll_mwords_remaining s;
     current_slot := 0; slots := [];
     frame_size := poll_frame_size s |}.

Record poll_wf (p : dram_port) (s : poll_state) : Prop := {
  poll_wf_current_address : in_range (aw p) (poll_current_address s);
  poll_wf_mwords_remaining : in_range (aw p) (poll_mwords_remaining s);
  poll_wf_frame_size : in_range (aw p) (poll_frame_size s);
  poll_wf_start_address : in_range (aw p) (start_address s);
  poll_wf_snapshot : last_count_snapshot_r s = true -> poll_fsm s = WAIT_SOF
}.

(** The bus write of the cycle leaves [address_valid] and [_dma_go]
    alone. *)
Definition keeps_gate (i : poll_inputs) : bool :=
  match pbus i with
  | Some (PollAddressValid _) | Some (PollDmaGo _) => false
  | _ => true
  end.

(** Stimuli of [DMA_poll]. *)
Definition poll_idle : poll_inputs :=
  {| pframe_valid := false; pframe_sof := false; pframe_pixels := 0;
     psink_ready := true; pwdata_valid := false; pbus := None |}.

Definition poll_cpu (op : poll_csr_op) : poll_inputs :=
  {| pframe_valid := false; pframe_sof := false; pframe_pixels := 0;
     psink_ready := true; pwdata_valid := false; pbus := Some op |}.

Definition poll_pixel (sof : bool) (data : Z) : poll_inputs :=
  {| pframe_valid := true; pframe_sof := sof; pframe_pixels := data;
     psink_ready := true; pwdata_valid := false; pbus := None |}.

(** A buffer of 3 words at 0x2000, armed; then the go. *)
Definition poll_setup : list poll_inputs :=
  [poll_cpu (PollFrameSize 3); poll_cpu (PollStartAddress 0x2000);
   poll_cpu (PollAddressValid 1)].
Definition poll_armed : poll_state := poll_run port32 poll_reset poll_setup.
Definition poll_gone : poll_state :=
  poll_run port32 poll_armed [poll_cpu (PollDmaGo 1); poll_idle].
Definition poll_words : list poll_inputs :=
  [poll_pixel true 1; poll_pixel false 2; poll_pixel false 3].

(** The bus write of the cycle is not a write to [_dma_go]. *)
Definition no_go (i : poll_inputs) : bool :=
  match pbus i with
  | Some (PollDmaGo _) => false
  | _ => true
  end.

(** ** HDMIIn, bypass path: start-of-frame tagging in the [pix] domain *)

(** The registers [vsync_r] and [fifo.sink.sof]. *)
Record sof_state := { vsync_r : bool; fifo_sink_sof : bool }.

(** The outputs of the decoder that the tagging reads. *)
Record pix_inputs := { hi0_vsync : bool; hi0_valid : bool; sdout : Z }.

(** [new_frame.eq(self.hi0_vsync & ~vsync_r)] *)
Definition new_frame (s : sof_state) (i : pix_inputs) : bool :=
  hi0_vsync i && negb (vsync_r s).

(** [Cat(lo, hi)] for [lo] of [w] bits. *)
Definition Cat (w : nat) (lo hi : Z) : Z :=
  Z.lor (wrap w lo) (Z.shiftl hi (Z.of_nat w)).

(** [fifo.sink.pixels.eq(Cat(self.sdout, dummy))], with [dummy] tied to 0. *)
Definition fifo_sink_pixels (i : pix_inputs) : Z := Cat 30 (sdout i) 0.

(** One edge of the [pix] clock. *)
Definition pix_step (s : sof_state) (i : pix_inputs) : sof_state :=
  {| vsync_r := hi0_vsync i;
     fifo_sink_sof :=
       if new_frame s i then true
       else if hi0_valid i then false
       else fifo_sink_sof s |}.

Definition pix_reset : sof_state := {| vsync_r := false; fifo_sink_sof := false |}.

Fixpoint pix_cycles (s : sof_state) (ins : list pix_inputs)
    : list (sof_state * pix_inputs) :=
  match ins with
  | [] => []
  | i :: ins => (s, i) :: pix_cycles (pix_step s i) ins
  end.

(** The words presented to the FIFO ([fifo.sink.valid] is [hi0_valid]):
    their [sof] flag and their pixels. *)
Definition offered (s : sof_state) (ins : list pix_inputs) : list (bool * Z) :=
  omap (fun c => if hi0_valid c.2
                 then Some (fifo_sink_sof c.1, fifo_sink_pixels c.2) else None)
       (pix_cycles s ins).

(** No rising edge of [vsync] in the cycles of [ins]. *)
Definition same_frame (s : sof_state) (ins : list pix_inputs) : Prop :=
  Forall (fun c => new_frame c.1 c.2 = false) (pix_cycles s ins).

(** The bus write of the cycle does not set bit 0 of a status
    register. *)
Definition arms_nothing (i : inputs) : bool :=
  match bus i with
  | Some (WrStatus _ v) => negb (Z.testbit (wrap 2 v) 0)
  | _ => true
  end.

(** No slot has the Loaded bit set. *)
Definition none_loaded (l : list Slot) : Prop :=
  forall n s, l !! n = Some s -> Slot_address_valid s = false.

(** A [vsync] pulse followed by blanking and three pixels. *)
Definition pix_frame : list pix_inputs :=
  [ {| hi0_vsync := true; hi0_valid := false; sdout := 0 |};
    {| hi0_vsync := false; hi0_valid := false; sdout := 0 |};
    {| hi0_vsync := false; hi0_valid := true; sdout := 7 |};
    {| hi0_vsync := false; hi0_valid := true; sdout := 8 |};
    {| hi0_vsync := false; hi0_valid := true; sdout := 9 |} ].

(** * Properties *)

(** ** Slots and the slot array *)

Lemma Slot_sync_idle a s : Slot_sync false a s = s.
Proof. by destruct s. Qed.

Lemma SlotArray_sync_idle a c l : SlotArray_sync false a c l = l.
Proof.
  apply list_eq; intros n. unfold SlotArray_sync.
  rewrite list_lookup_imap. destruct (l !! n) as [s|]; simpl; [|done].
  by rewrite Slot_sync_idle.
Qed.

Lemma SlotArray_sync_lookup d a c l n :
  SlotArray_sync d a c l !! n = Slot_sync (d && Nat.eqb c n) a <$> l !! n.
Proof. unfold SlotArray_sync. by rewrite list_lookup_imap. Qed.

Lemma SlotArray_sync_done a c l :
  SlotArray_sync true a c l
  = alter (fun _ => {| status_storage := PENDING; address_storage := a |}) c l.
Proof.
  apply list_eq; intros n. rewrite SlotArray_sync_lookup, list_lookup_alter.
  simpl. case_decide as Hn.
  - subst n. rewrite Nat.eqb_refl. by destruct (l !! c).
  - apply Nat.eqb_neq in Hn. rewrite Hn.
    destruct (l !! n); simpl; [|done]. by rewrite Slot_sync_idle.
Qed.

Lemma length_SlotArray_sync d a c l : length (SlotArray_sync d a c l) = length l.
Proof. unfold SlotArray_sync. apply length_imap. Qed.

Lemma length_csr_slots p op l : length (csr_slots p op l) = length l.
Proof. unfold csr_slots. apply length_imap. Qed.

Lemma csr_slots_lookup p op l n :
  csr_slots p op l !! n = Slot_csr p op n <$> l !! n.
Proof. unfold csr_slots. by rewrite list_lookup_imap. Qed.

Lemma csr_slots_idle p l : csr_slots p None l = l.
Proof.
  apply list_eq; intros n. rewrite csr_slots_lookup. by destruct (l !! n).
Qed.

Lemma step_slots_lookup p st i n :
  slots (step p st i) !! n
  = (fun s => Slot_csr p (bus i) n
                (Slot_sync (address_done (control st i) && Nat.eqb (current_slot st) n)
                           (current_address st) s))
    <$> slots st !! n.
Proof.
  simpl. rewrite csr_slots_lookup, SlotArray_sync_lookup.
  by destruct (slots st !! n).
Qed.

(** The chain of conditional assignments, for an arbitrary numbering [j]
    of the positions. *)
Lemma arbitrate_chain (j : nat -> nat) l cur :
  foldl (fun c ns => if Slot_address_valid ns.2 then ns.1 else c)
        cur (reverse (imap (fun n s => (j n, s)) l))
  = match list_find (fun s => Slot_address_valid s = true) l with
    | Some (n, _) => j n
    | None => cur
    end.
Proof.
  revert j. induction l as [|s l IH]; intros j; [done|].
  rewrite imap_cons, reverse_cons, foldl_app. simpl.
  unfold compose. rewrite (IH (fun n => j (S n))).
  case_decide as Hs.
  - by rewrite Hs.
  - apply not_true_is_false in Hs. rewrite Hs.
    by destruct (list_find _ l) as [[n x]|].
Qed.

Lemma arbitrate_find l cur :
  arbitrate l cur
  = match list_find (fun s => Slot_address_valid s = true) l with
    | Some (n, _) => n
    | None => cur
    end.
Proof. apply (arbitrate_chain (fun n => n)). Qed.

Lemma arbitrate_lowest l cur n s :
  l !! n = Some s -> Slot_address_valid s = true ->
  (forall m s', (m < n)%nat -> l !! m = Some s' -> Slot_address_valid s' = false) ->
  arbitrate l cur = n.
Proof.
  intros Hn Hs Hlow. rewrite arbitrate_find.
  assert (list_find (fun s => Slot_address_valid s = true) l = Some (n, s)) as ->; [|done].
  apply list_find_Some. split_and!; [done..|].
  intros m s' Hm Hlt. rewrite (Hlow m s' Hlt Hm). done.
Qed.

Lemma arbitrate_none l cur :
  (forall m s, l !! m = Some s -> Slot_address_valid s = false) ->
  arbitrate l cur = cur.
Proof.
  intros Hno. rewrite arbitrate_find.
  assert (list_find (fun s => Slot_address_valid s = true) l = None) as ->; [|done].
  apply list_find_None, Forall_lookup. intros m s Hm.
  rewrite (Hno m s Hm). done.
Qed.

(** Arbitration only ever moves to a slot whose bit 0 is set. *)
Lemma arbitrate_selected l cur :
  arbitrate l cur = cur \/
  exists s, l !! arbitrate l cur = Some s /\ Slot_address_valid s = true.
Proof.
  rewrite arbitrate_find.
  destruct (list_find _ l) as [[n s]|] eqn:Hf; [|by left].
  apply list_find_Some in Hf as (Hn & Hs & _). right. eauto.
Qed.

Lemma arbitrate_lt l cur :
  (cur < length l)%nat -> (arbitrate l cur < length l)%nat.
Proof.
  intros Hc. destruct (arbitrate_selected l cur) as [-> | (s & Hs & _)]; [done|].
  by apply lookup_lt_Some in Hs.
Qed.

(** For the three statuses of the protocol, bit 0 is the Loaded status. *)
Lemma address_valid_Loaded s :
  status_storage s = EMPTY \/ status_storage s = LOADED \/ status_storage s = PENDING ->
  (Slot_address_valid s = true <-> status_storage s = LOADED).
Proof.
  unfold Slot_address_valid, EMPTY, LOADED, PENDING.
  intros [-> | [-> | ->]]; simpl; split; intros; congruence.
Qed.

(** C2. Whenever arbitration runs ([change_slot]), the slot that becomes
    current is the lowest-indexed slot among those whose status has the
    Loaded bit set.  With slots 0 and 2 Loaded and slot 1 Empty the array
    selects slot 0; once slot 0 is Pending and only slot 2 is Loaded,
    arbitration selects slot 2. *)
Theorem arbitration_lowest_index_wins :
  (forall p st i n s,
      change_slot st i = true ->
      slots st !! n = Some s -> Slot_address_valid s = true ->
      (forall m s', (m < n)%nat -> slots st !! m = Some s' ->
                    Slot_address_valid s' = false) ->
      current_slot (step p st i) = n) /\
  (forall a0 a1 a2 cur,
      arbitrate [ {| status_storage := LOADED; address_storage := a0 |};
                  {| status_storage := EMPTY; address_storage := a1 |};
                  {| status_storage := LOADED; address_storage := a2 |} ] cur = 0%nat) /\
  (forall a0 a1 a2 cur,
      arbitrate [ {| status_storage := PENDING; address_storage := a0 |};
                  {| status_storage := EMPTY; address_storage := a1 |};
                  {| status_storage := LOADED; address_storage := a2 |} ] cur = 2%nat).
Proof.
  split_and!.
  - intros p st i n s Hchg Hn Hs Hlow. simpl. rewrite Hchg.
    by eapply arbitrate_lowest.
  - done.
  - done.
Qed.

(** ** Well-formed states *)

Lemma wrap_in_range w x : in_range w (wrap w x).
Proof. unfold in_range, wrap. apply Z.mod_pos_bound. lia. Qed.

Lemma wrap_small w x : in_range w x -> wrap w x = x.
Proof. unfold in_range, wrap. intros H. by apply Z.mod_small. Qed.

Lemma in_range_0 w : in_range w 0.
Proof. unfold in_range. lia. Qed.

Lemma Array_get_wf p l n : Forall (Slot_wf p) l -> Slot_wf p (Array_get l n).
Proof.
  intros Hl. unfold Array_get. destruct (l !! n) as [s|] eqn:Hn; simpl.
  - by eapply Forall_lookup_1.
  - split; apply in_range_0.
Qed.

Lemma SlotArray_sync_wf p d a c l :
  in_range (aw p) a -> Forall (Slot_wf p) l ->
  Forall (Slot_wf p) (SlotArray_sync d a c l).
Proof.
  intros Ha Hl. apply Forall_lookup. intros n s.
  rewrite SlotArray_sync_lookup. destruct (l !! n) as [s0|] eqn:Hn; [|done].
  simpl. intros [= <-]. pose proof (Forall_lookup_1 _ _ _ _ Hl Hn) as [Hs0 Ha0].
  destruct (d && Nat.eqb c n); split; simpl; done.
Qed.

Lemma csr_slots_wf p op l :
  Forall (Slot_wf p) l -> Forall (Slot_wf p) (csr_slots p op l).
Proof.
  intros Hl. apply Forall_lookup. intros n s.
  rewrite csr_slots_lookup. destruct (l !! n) as [s0|] eqn:Hn; [|done].
  simpl. intros [= <-]. pose proof (Forall_lookup_1 _ _ _ _ Hl Hn) as [Hs0 Ha0].
  destruct op as [[m v|m v|v]|]; simpl; try done.
  - destruct (Nat.eqb m n); [|done]. split; simpl; [apply wrap_in_range|done].
  - destruct (Nat.eqb m n); [|done]. split; simpl; [done|apply wrap_in_range].
Qed.

Lemma wf_reset p nslots : (0 < nslots)%nat -> wf p nslots (reset nslots).
Proof.
  intros Hn. split; simpl; try apply in_range_0; try done.
  - apply length_replicate.
  - apply Forall_replicate. split; apply in_range_0.
Qed.

Lemma wf_step p nslots st i : wf p nslots st -> wf p nslots (step p st i).
Proof.
  intros [Hlen Hcur Ha Hm Hf Hsl Heof]. split; simpl.
  - by rewrite length_csr_slots, length_SlotArray_sync.
  - destruct (change_slot st i); [|done].
    rewrite <- Hlen. apply arbitrate_lt. by rewrite Hlen.
  - unfold control. destruct (fsm st); simpl.
    + apply (Array_get_wf p _ (current_slot st) Hsl).
    + destruct (frame_valid i && sink_ready i); [apply wrap_in_range|done].
    + done.
  - unfold control. destruct (fsm st); simpl.
    + done.
    + destruct (frame_valid i && sink_ready i); [apply wrap_in_range|done].
    + done.
  - destruct (bus i) as [[]|]; simpl; try done. apply wrap_in_range.
  - by apply csr_slots_wf, SlotArray_sync_wf.
  - unfold control, last_word. destruct (fsm st) eqn:Hs; simpl.
    + by destruct (_ && _).
    + destruct (frame_valid i && sink_ready i); simpl; [|done].
      destruct (mwords_remaining st =? 1) eqn:Hl; [|done].
      apply Z.eqb_eq in Hl. rewrite Hl. intros _. done.
    + destruct (negb (wdata_valid i)); [done|]. intros _. by apply Heof.
Qed.

Lemma reachable_wf p nslots st :
  (0 < nslots)%nat -> reachable p nslots st -> wf p nslots st.
Proof.
  intros Hn. induction 1; [by apply wf_reset|by apply wf_step].
Qed.

Lemma reachable_run p nslots st ins :
  reachable p nslots st -> reachable p nslots (run p st ins).
Proof.
  revert st. induction ins as [|i ins IH]; intros st Hst; simpl; [done|].
  apply IH. by constructor.
Qed.

(** [address_done] is raised only in [EOF], once the write data channel
    of the port is idle. *)
Lemma address_done_EOF st i :
  address_done (control st i) = true -> fsm st = EOF /\ wdata_valid i = false.
Proof.
  unfold control. destruct (fsm st); simpl; try done.
  destruct (wdata_valid i); simpl; done.
Qed.

(** C6. On completion ([address_done]) the current slot, and only it,
    takes the status Pending and the published [address_reached]; the
    status and the stored address of every other slot are those of before
    the completion. *)
Theorem completion_marks_current_slot_only p nslots st i
    (Hn : (0 < nslots)%nat)
    (Hreach : reachable p nslots st)
    (Hdone : address_done (control st i) = true) :
  let l' := SlotArray_sync (address_done (control st i)) (current_address st)
                           (current_slot st) (slots st) in
  (current_slot st < length (slots st))%nat /\
  slots (step p st i) = csr_slots p (bus i) l' /\
  l' !! current_slot st
    = Some {| status_storage := PENDING; address_storage := current_address st |} /\
  (forall n, n <> current_slot st -> l' !! n = slots st !! n).
Proof.
  intros l'. subst l'. rewrite Hdone.
  pose proof (reachable_wf p nslots st Hn Hreach) as [Hlen Hcur _ _ _ _ _].
  split_and!.
  - by rewrite Hlen.
  - simpl. by rewrite Hdone.
  - rewrite SlotArray_sync_done, list_lookup_alter_eq.
    destruct (lookup_lt_is_Some_2 (slots st) (current_slot st)) as [s Hs]; [lia|].
    by rewrite Hs.
  - intros n Hne. rewrite SlotArray_sync_done. by apply list_lookup_alter_ne.
Qed.

(** ** Who writes the slot registers *)

Lemma Slot_csr_status p i n s :
  writes_status n i = false ->
  status_storage (Slot_csr p (bus i) n s) = status_storage s.
Proof.
  unfold writes_status, Slot_csr.
  destruct (bus i) as [[m v|m v|v]|]; try done.
  - by intros ->.
  - by destruct (Nat.eqb m n).
Qed.

(** C5. A slot whose status register the consumer does not write in a
    cycle becomes Pending at that clock edge only if the engine is in EOF
    and the write data channel of the port is drained
    ([dram_port.wdata.valid] low) in that cycle; it is the current slot. *)
Theorem pending_only_after_drain p st i n s s'
    (Hs : slots st !! n = Some s)
    (Hs' : slots (step p st i) !! n = Some s')
    (Hbus : writes_status n i = false)
    (Hbefore : status_storage s <> PENDING)
    (Hafter : status_storage s' = PENDING) :
  fsm st = EOF /\ wdata_valid i = false /\ n = current_slot st.
Proof.
  rewrite step_slots_lookup, Hs in Hs'. simpl in Hs'. injection Hs' as <-.
  rewrite Slot_csr_status in Hafter by done.
  destruct (address_done (control st i)) eqn:Hdone; simpl in Hafter.
  - destruct (address_done_EOF _ _ Hdone) as [-> ->].
    destruct (Nat.eqb (current_slot st) n) eqn:Hn; simpl in Hafter.
    + apply Nat.eqb_eq in Hn. done.
    + done.
  - done.
Qed.

Lemma step_keeps_pending p st i n s :
  slots st !! n = Some s -> status_storage s = PENDING ->
  writes_status n i = false ->
  exists s', slots (step p st i) !! n = Some s' /\ status_storage s' = PENDING.
Proof.
  intros Hs Hp Hq. rewrite step_slots_lookup, Hs. simpl.
  eexists; split; [done|]. rewrite Slot_csr_status by done.
  by destruct (_ && _).
Qed.

Lemma run_keeps_pending p st ins n s :
  slots st !! n = Some s -> status_storage s = PENDING ->
  Forall (fun j => writes_status n j = false) ins ->
  exists s', slots (run p st ins) !! n = Some s' /\ status_storage s' = PENDING.
Proof.
  revert st s. induction ins as [|i ins IH]; intros st s Hs Hp Hq; simpl.
  - eauto.
  - apply Forall_cons_1 in Hq as [Hi Hq].
    destruct (step_keeps_pending p st i n s Hs Hp Hi) as (s1 & Hs1 & Hp1).
    by eapply IH.
Qed.

(** C10. The completion write stores exactly 2 in the status register of
    the current slot: Pending set, Loaded (bit 0) cleared.  For as long as
    the consumer does not write that register again, the status stays 2,
    the slot is not [address_valid], and arbitration never moves
    [current_slot] onto it. *)
Theorem completion_status_is_exactly_pending p nslots st i ins
    (Hn : (0 < nslots)%nat)
    (Hreach : reachable p nslots st)
    (Hdone : address_done (control st i) = true)
    (Hquiet : Forall (fun j => writes_status (current_slot st) j = false) (i :: ins)) :
  exists s',
    slots (run p (step p st i) ins) !! current_slot st = Some s' /\
    status_storage s' = 2 /\
    Z.testbit (status_storage s') 1 = true /\
    Slot_address_valid s' = false /\
    (forall cur, cur <> current_slot st ->
       arbitrate (slots (run p (step p st i) ins)) cur <> current_slot st).
Proof.
  apply Forall_cons_1 in Hquiet as [Hi Hq].
  pose proof (reachable_wf p nslots st Hn Hreach) as [Hlen Hcur _ _ _ _ _].
  destruct (lookup_lt_is_Some_2 (slots st) (current_slot st)) as [s Hs]; [lia|].
  assert (exists s1, slots (step p st i) !! current_slot st = Some s1
                     /\ status_storage s1 = PENDING) as (s1 & Hs1 & Hp1).
  { rewrite step_slots_lookup, Hs. simpl. eexists; split; [done|].
    rewrite Slot_csr_status by done. by rewrite Hdone, Nat.eqb_refl. }
  destruct (run_keeps_pending p _ ins _ s1 Hs1 Hp1 Hq) as (s' & Hs' & Hp').
  exists s'. unfold Slot_address_valid. rewrite Hp'. split_and!; try done.
  intros cur Hne Harb.
  destruct (arbitrate_selected (slots (run p (step p st i) ins)) cur)
    as [Heq | (s2 & Hs2 & Hv2)]; [congruence|].
  rewrite Harb, Hs' in Hs2. injection Hs2 as <-.
  unfold Slot_address_valid in Hv2. rewrite Hp' in Hv2. done.
Qed.

(** C9 (as amended). In a cycle without [address_done] the producer side
    leaves both registers of every slot as they are, and a completion
    leaves every slot but the current one as it is; the completion does
    overwrite the address register of the current slot with
    [address_reached] (and its status with Pending).  On the consumer side,
    arming, disarming and address writes never produce the status
    Pending: only a bus write of the value 2 to the status register does. *)
Theorem slot_register_authority p st i :
  let l' := SlotArray_sync (address_done (control st i)) (current_address st)
                           (current_slot st) (slots st) in
  (address_done (control st i) = false -> l' = slots st) /\
  (forall n, n <> current_slot st -> l' !! n = slots st !! n) /\
  (address_done (control st i) = true ->
   forall s, slots st !! current_slot st = Some s ->
     l' !! current_slot st
       = Some {| status_storage := PENDING; address_storage := current_address st |}) /\
  (forall op l n s s',
     l !! n = Some s -> csr_slots p (Some op) l !! n = Some s' ->
     status_storage s' = PENDING ->
     status_storage s = PENDING \/ exists v, op = WrStatus n v /\ wrap 2 v = PENDING).
Proof.
  intros l'. subst l'. split_and!.
  - intros ->. apply SlotArray_sync_idle.
  - intros n Hne. rewrite SlotArray_sync_lookup.
    assert (Nat.eqb (current_slot st) n = false) as -> by (apply Nat.eqb_neq; congruence).
    rewrite andb_false_r. destruct (slots st !! n); simpl; [|done].
    by rewrite Slot_sync_idle.
  - intros -> s Hs. by rewrite SlotArray_sync_done, list_lookup_alter_eq, Hs.
  - intros op l n s s' Hs. rewrite csr_slots_lookup, Hs. simpl. intros [= <-].
    destruct op as [m v|m v|v]; simpl; [| |by left].
    + destruct (Nat.eqb m n) eqn:Hm; simpl; [|by left].
      apply Nat.eqb_eq in Hm. subst m. intros Hv. right. eauto.
    + destruct (Nat.eqb m n); simpl; by left.
Qed.

(** ** Frame transfers *)

Lemma starts_seed p st i :
  starts st i ->
  fsm (step p st i) = TRANSFER_PIXELS /\
  current_address (step p st i) = SlotArray_address st /\
  mwords_remaining (step p st i) = frame_size st /\
  SlotArray_address_valid st = true.
Proof.
  intros [Hw Hn]. simpl. unfold control in *. rewrite Hw in *. simpl in *.
  split_and!; try done.
  destruct (SlotArray_address_valid st); [done|]. simpl in Hn. done.
Qed.

Lemma writes_cons p st i ins :
  writes p st (i :: ins)
  = match write_of p st i with
    | Some w => w :: writes p (step p st i) ins
    | None => writes p (step p st i) ins
    end.
Proof. unfold writes. simpl. by destruct (write_of p st i). Qed.

Lemma addresses_cons p st i ins :
  addresses p st (i :: ins)
  = match write_of p st i with
    | Some w => w.1 :: addresses p (step p st i) ins
    | None => addresses p (step p st i) ins
    end.
Proof. unfold addresses. rewrite writes_cons. by destruct (write_of p st i). Qed.

Lemma busy_cons p st i ins :
  busy p st (i :: ins) <-> fsm st <> WAIT_SOF /\ busy p (step p st i) ins.
Proof.
  unfold busy. simpl. split.
  - intros H. by apply Forall_cons_1 in H.
  - intros [Hne Hb]. by constructor.
Qed.

(** In EOF nothing is handed to the transport. *)
Lemma EOF_no_writes p st ins :
  fsm st = EOF -> busy p st ins -> writes p st ins = [].
Proof.
  revert st. induction ins as [|i ins IH]; intros st He Hb; [done|].
  apply busy_cons in Hb as [_ Hb]. rewrite writes_cons.
  assert (write_of p st i = None) as ->.
  { unfold write_of, control. by rewrite He. }
  destruct ins as [|j ins]; [done|].
  apply IH; [|done].
  pose proof Hb as Hb'. apply busy_cons in Hb' as [Hne _].
  revert Hne. simpl. unfold control. rewrite He. simpl.
  by destruct (negb (wdata_valid i)).
Qed.

(** One cycle of TRANSFER_PIXELS. *)
Lemma TRANSFER_commit p st i :
  fsm st = TRANSFER_PIXELS -> frame_valid i && sink_ready i = true ->
  write_of p st i = Some (current_address st, memory_word p i) /\
  current_address (step p st i) = wrap (aw p) (current_address st + 1) /\
  mwords_remaining (step p st i) = wrap (aw p) (mwords_remaining st - 1) /\
  fsm (step p st i) = (if mwords_remaining st =? 1 then EOF else TRANSFER_PIXELS).
Proof.
  intros Ht Hc. unfold write_of. simpl. unfold control, last_word. rewrite Ht. simpl.
  rewrite Hc. simpl. done.
Qed.

Lemma TRANSFER_stall p st i :
  fsm st = TRANSFER_PIXELS -> frame_valid i && sink_ready i = false ->
  write_of p st i = None /\
  current_address (step p st i) = current_address st /\
  mwords_remaining (step p st i) = mwords_remaining st /\
  fsm (step p st i) = TRANSFER_PIXELS.
Proof.
  intros Ht Hc. unfold write_of. simpl. unfold control, last_word. rewrite Ht. simpl.
  rewrite Hc. simpl. done.
Qed.

Lemma frame_addresses_cons w base count :
  in_range w base -> 1 <= count ->
  frame_addresses w base count
  = base :: frame_addresses w (wrap w (base + 1)) (count - 1).
Proof.
  intros Hb Hc. unfold frame_addresses.
  rewrite seqZ_cons by lia. simpl. rewrite Z.add_0_r, wrap_small by done.
  f_equal. replace (Z.succ 0) with (1 + 0) by lia.
  replace (Z.pred count) with (count - 1) by lia.
  rewrite <- (fmap_add_seqZ 1 0), <- list_fmap_compose.
  apply list_fmap_ext. intros _ k _. simpl. unfold wrap.
  rewrite Zplus_mod_idemp_l. f_equal. lia.
Qed.

(** From a state of TRANSFER_PIXELS with [r >= 1] words remaining, a run
    that completes the transfer hands over exactly [r] words, at
    consecutive addresses. *)
Lemma TRANSFER_addresses p st ins :
  fsm st = TRANSFER_PIXELS ->
  in_range (aw p) (current_address st) ->
  in_range (aw p) (mwords_remaining st) ->
  1 <= mwords_remaining st ->
  completes p st ins ->
  addresses p st ins
  = frame_addresses (aw p) (current_address st) (mwords_remaining st).
Proof.
  revert st. induction ins as [|i ins IH]; intros st Ht Ha Hr H1 [Hb Hc].
  - simpl in Hc. congruence.
  - apply busy_cons in Hb as [_ Hb]. simpl in Hc.
    rewrite addresses_cons.
    destruct (frame_valid i && sink_ready i) eqn:Hcw.
    + destruct (TRANSFER_commit p st i Ht Hcw) as (-> & Ha' & Hr' & Hs').
      rewrite frame_addresses_cons by done. cbn [fst]. f_equal.
      destruct (mwords_remaining st =? 1) eqn:Hl.
      * apply Z.eqb_eq in Hl. rewrite Hl. unfold addresses.
        rewrite (EOF_no_writes p _ ins Hs' Hb). done.
      * apply Z.eqb_neq in Hl.
        assert (wrap (aw p) (mwords_remaining st - 1) = mwords_remaining st - 1) as Hw.
        { apply wrap_small. unfold in_range in *. lia. }
        rewrite IH; try done.
        -- by rewrite Ha', Hr', Hw.
        -- rewrite Ha'. apply wrap_in_range.
        -- rewrite Hr'. apply wrap_in_range.
        -- rewrite Hr', Hw. lia.
    + destruct (TRANSFER_stall p st i Ht Hcw) as (-> & Ha' & Hr' & Hs').
      rewrite IH; try done.
      * by rewrite Ha', Hr'.
      * by rewrite Ha'.
      * by rewrite Hr'.
      * by rewrite Hr'.
Qed.

Lemma frame_addresses_NoDup w base count :
  in_range w count -> NoDup (frame_addresses w base count).
Proof.
  intros [H0 Hc]. unfold frame_addresses.
  apply NoDup_fmap_2_strong; [|apply NoDup_seqZ].
  intros x y Hx Hy. rewrite !elem_of_seqZ in *. unfold wrap. intros Heq.
  assert (0 < 2 ^ Z.of_nat w) as Hm by lia.
  pose proof (Z.div_mod (base + x) (2 ^ Z.of_nat w) ltac:(lia)) as Dx.
  pose proof (Z.div_mod (base + y) (2 ^ Z.of_nat w) ltac:(lia)) as Dy.
  rewrite Heq in Dx.
  generalize dependent ((base + x) / 2 ^ Z.of_nat w).
  generalize dependent ((base + y) / 2 ^ Z.of_nat w).
  generalize dependent ((base + y) mod 2 ^ Z.of_nat w).
  generalize dependent (2 ^ Z.of_nat w).
  intros m Hc Hm r _ q2 Dy q1 Dx.
  assert (m * (q1 - q2) = x - y) as Hd by lia.
  destruct (Z.lt_trichotomy q1 q2) as [Hlt | [-> | Hgt]]; [nia|lia|nia].
Qed.

(** C3 (as amended). For every completed frame transfer with a frame size
    of at least one word, the addresses written are [base], [base+1], ...,
    [base+frame_size-1] in [aw]-bit arithmetic, in this order, without
    repeats, and the number of words written is the frame size.  Nothing
    is written in the cycle that starts the transfer. *)
Theorem completed_frame_addresses p nslots st i ins
    (Hn : (0 < nslots)%nat)
    (Hreach : reachable p nslots st)
    (Hstart : starts st i)
    (Hsize : 1 <= frame_size st)
    (Hdone : completes p (step p st i) ins) :
  write_of p st i = None /\
  addresses p (step p st i) ins
  = (fun k => (SlotArray_address st + k) mod 2 ^ Z.of_nat (aw p))
    <$> seqZ 0 (frame_size st) /\
  NoDup (addresses p (step p st i) ins) /\
  Z.of_nat (length (addresses p (step p st i) ins)) = frame_size st.
Proof.
  pose proof (reachable_wf p nslots st Hn Hreach) as [_ _ _ _ Hf Hsl _].
  destruct (starts_seed p st i Hstart) as (Ht & Ha & Hr & Hv).
  assert (addresses p (step p st i) ins
          = frame_addresses (aw p) (SlotArray_address st) (frame_size st)) as Heq.
  { rewrite TRANSFER_addresses; try done.
    - by rewrite Ha, Hr.
    - rewrite Ha. apply (Array_get_wf p _ (current_slot st) Hsl).
    - by rewrite Hr.
    - by rewrite Hr. }
  split_and!.
  - destruct Hstart as [Hw _]. unfold write_of, control. by rewrite Hw.
  - done.
  - rewrite Heq. by apply frame_addresses_NoDup.
  - rewrite Heq. unfold frame_addresses. rewrite length_fmap, length_seqZ. lia.
Qed.

(** While a transfer seeded with at least one word is in progress, every
    word is committed with a non-zero word counter. *)
Lemma TRANSFER_ceiling p st ins :
  (fsm st = TRANSFER_PIXELS -> 1 <= mwords_remaining st) ->
  in_range (aw p) (mwords_remaining st) ->
  busy p st ins ->
  Forall (fun c => is_Some (write_of p c.1 c.2) -> 1 <= mwords_remaining c.1)
         (cycles p st ins).
Proof.
  revert st. induction ins as [|i ins IH]; intros st H1 Hr Hb; simpl; [constructor|].
  apply busy_cons in Hb as [Hne Hb]. constructor.
  - simpl. unfold write_of, control. destruct (fsm st) eqn:Hs; simpl.
    + by intros [? ?].
    + intros _. by apply H1.
    + by intros [? ?].
  - destruct ins as [|j ins]; [constructor|].
    pose proof Hb as Hb'. apply busy_cons in Hb' as [Hne' _].
    apply IH; [| |done].
    + intros Ht'. destruct (fsm st) eqn:Hs; [done| |].
      * specialize (H1 eq_refl).
        destruct (frame_valid i && sink_ready i) eqn:Hcw.
        -- destruct (TRANSFER_commit p st i Hs Hcw) as (_ & _ & Hr' & Hs').
           rewrite Ht' in Hs'. destruct (mwords_remaining st =? 1) eqn:Hl; [done|].
           apply Z.eqb_neq in Hl. rewrite Hr', wrap_small; unfold in_range in *; lia.
        -- destruct (TRANSFER_stall p st i Hs Hcw) as (_ & _ & -> & _). done.
      * revert Ht'. simpl. unfold control. rewrite Hs. simpl.
        by destruct (negb (wdata_valid i)).
    + pose proof (wrap_in_range (aw p) (mwords_remaining st - 1)).
      simpl. unfold control. destruct (fsm st); simpl; try done.
      by destruct (frame_valid i && sink_ready i).
Qed.

(** During a transfer the sum of the address counter and of the word
    counter is constant in [aw]-bit arithmetic, and the word counter is 0
    in EOF. *)
Lemma busy_step_sum p st i :
  fsm st <> WAIT_SOF -> fsm (step p st i) <> WAIT_SOF ->
  (fsm st = EOF -> mwords_remaining st = 0) ->
  wrap (aw p) (current_address (step p st i) + mwords_remaining (step p st i))
  = wrap (aw p) (current_address st + mwords_remaining st) /\
  (fsm (step p st i) = EOF -> mwords_remaining (step p st i) = 0).
Proof.
  intros Hne Hne' Heof. destruct (fsm st) eqn:Hs; [done| |].
  - destruct (frame_valid i && sink_ready i) eqn:Hcw.
    + destruct (TRANSFER_commit p st i Hs Hcw) as (_ & -> & -> & ->).
      split.
      * unfold wrap. rewrite <- Zplus_mod. f_equal. lia.
      * destruct (mwords_remaining st =? 1) eqn:Hl; [|done].
        apply Z.eqb_eq in Hl. rewrite Hl. done.
    + destruct (TRANSFER_stall p st i Hs Hcw) as (_ & -> & -> & ->). done.
  - revert Hne'. simpl. unfold control. rewrite Hs. simpl.
    destruct (negb (wdata_valid i)); [done|]. intros _. split; [done|]. intros _. by apply Heof.
Qed.

Lemma busy_head p st ins :
  busy p st ins -> fsm (run p st ins) <> WAIT_SOF -> fsm st <> WAIT_SOF.
Proof.
  destruct ins as [|i ins]; [done|]. intros Hb _. by apply busy_cons in Hb as [? _].
Qed.

Lemma busy_run_sum p st ins :
  busy p st ins -> fsm (run p st ins) <> WAIT_SOF ->
  (fsm st = EOF -> mwords_remaining st = 0) ->
  wrap (aw p) (current_address (run p st ins) + mwords_remaining (run p st ins))
  = wrap (aw p) (current_address st + mwords_remaining st) /\
  (fsm (run p st ins) = EOF -> mwords_remaining (run p st ins) = 0).
Proof.
  revert st. induction ins as [|i ins IH]; intros st Hb Hend Heof; [done|].
  pose proof (busy_head p _ _ Hb Hend) as Hne.
  apply busy_cons in Hb as [_ Hb]. simpl in Hend.
  pose proof (busy_head p _ _ Hb Hend) as Hne'.
  destruct (busy_step_sum p st i Hne Hne' Heof) as [Hsum Heof'].
  destruct (IH _ Hb Hend Heof') as [Hsum' Heof'']. simpl.
  split; [|done]. by rewrite Hsum'.
Qed.

(** C7 (as amended). For every completed frame the value published as
    [address_reached], and stored with the status Pending in the address
    register of the current slot, is the base address plus the frame size
    in [aw]-bit arithmetic: the address that follows the last one
    written. *)
Theorem address_reached_is_frame_end p nslots st0 i0 ins i
    (Hn : (0 < nslots)%nat)
    (Hreach : reachable p nslots st0)
    (Hstart : starts st0 i0)
    (Hbusy : busy p (step p st0 i0) ins)
    (Hdone : address_done (control (run p (step p st0 i0) ins) i) = true) :
  let st := run p (step p st0 i0) ins in
  current_address st = wrap (aw p) (SlotArray_address st0 + frame_size st0) /\
  SlotArray_sync (address_done (control st i)) (current_address st)
                 (current_slot st) (slots st) !! current_slot st
  = Some {| status_storage := PENDING;
            address_storage := wrap (aw p) (SlotArray_address st0 + frame_size st0) |}.
Proof.
  intros st. fold st in Hdone. destruct (address_done_EOF _ _ Hdone) as [He _].
  destruct (starts_seed p st0 i0 Hstart) as (Ht & Ha & Hr & _).
  destruct (busy_run_sum p (step p st0 i0) ins Hbusy) as [Hsum Hz].
  { fold st. congruence. }
  { congruence. }
  fold st in Hsum, Hz. rewrite (Hz He), Z.add_0_r, Ha, Hr in Hsum.
  assert (reachable p nslots st) as Hst.
  { apply reachable_run. by constructor. }
  pose proof (reachable_wf p nslots st Hn Hst) as [Hlen Hcur Hca _ _ _ _].
  rewrite (wrap_small _ _ Hca) in Hsum. split; [done|].
  rewrite Hdone, SlotArray_sync_done, list_lookup_alter_eq.
  destruct (lookup_lt_is_Some_2 (slots st) (current_slot st)) as [s Hs]; [lia|].
  rewrite Hs. simpl. by rewrite Hsum.
Qed.

(** ** Writes and the status of the current slot *)

Lemma undisturbed_step p st i :
  (fsm st = TRANSFER_PIXELS -> SlotArray_address_valid st = true) ->
  undisturbed st i ->
  fsm (step p st i) = TRANSFER_PIXELS ->
  SlotArray_address_valid (step p st i) = true /\
  current_slot (step p st i) = current_slot st.
Proof.
  intros Hinv Hu Hnext. simpl in Hnext. specialize (Hu Hnext).
  assert (SlotArray_address_valid st = true /\ address_done (control st i) = false)
    as [Hv Hd].
  { revert Hnext Hinv. unfold control. destruct (fsm st); simpl.
    - destruct (SlotArray_address_valid st); done.
    - intros _ Hinv. by rewrite Hinv.
    - by destruct (negb (wdata_valid i)). }
  assert (current_slot (step p st i) = current_slot st) as Hcur.
  { simpl. unfold change_slot. by rewrite Hv, Hd. }
  split; [|done]. unfold SlotArray_address_valid, Array_get in *.
  rewrite Hcur, step_slots_lookup, Hd. simpl.
  destruct (slots st !! current_slot st) as [s|]; simpl in *; [|done].
  unfold Slot_address_valid in *. rewrite Slot_csr_status by done.
  by rewrite Slot_sync_idle.
Qed.

Lemma undisturbed_cycles p st ins :
  (fsm st = TRANSFER_PIXELS -> SlotArray_address_valid st = true) ->
  Forall (fun c => undisturbed c.1 c.2) (cycles p st ins) ->
  Forall (fun c => is_Some (write_of p c.1 c.2) ->
                   fsm c.1 = TRANSFER_PIXELS /\ SlotArray_address_valid c.1 = true)
         (cycles p st ins).
Proof.
  revert st. induction ins as [|i ins IH]; intros st Hinv Hu; simpl; [constructor|].
  simpl in Hu. apply Forall_cons_1 in Hu as [Hi Hu]. constructor.
  - simpl. unfold write_of, control. destruct (fsm st) eqn:Hs; simpl.
    + by intros [? ?].
    + intros _. by split; [|apply Hinv].
    + by intros [? ?].
  - apply IH; [|done]. intros Hnext.
    by destruct (undisturbed_step p st i Hinv Hi Hnext).
Qed.

(** C1 (as amended). The engine tests the status of the current slot when
    it leaves WAIT_SOF and not afterwards.  In every execution in which the
    consumer does not write the status register of the current slot in a
    cycle that starts or continues a transfer, each write is issued in
    TRANSFER_PIXELS with the Loaded bit of the current slot set in that
    cycle. *)
Theorem writes_only_into_loaded_slot p nslots ins
    (Hquiet : Forall (fun c => undisturbed c.1 c.2) (cycles p (reset nslots) ins)) :
  Forall (fun c => is_Some (write_of p c.1 c.2) ->
                   fsm c.1 = TRANSFER_PIXELS /\
                   exists s, slots c.1 !! current_slot c.1 = Some s /\
                             Slot_address_valid s = true)
         (cycles p (reset nslots) ins).
Proof.
  assert (fsm (reset nslots) = TRANSFER_PIXELS ->
          SlotArray_address_valid (reset nslots) = true) as H0 by done.
  pose proof (undisturbed_cycles p (reset nslots) ins H0 Hquiet) as Hall.
  eapply Forall_impl; [|exact Hall].
  intros [st i]. simpl. intros H Hw. destruct (H Hw) as [Ht Hv]. split; [done|].
  unfold SlotArray_address_valid, Array_get in Hv.
  destruct (slots st !! current_slot st) as [s|]; [eauto|done].
Qed.

(** ** Frames that find no slot *)

Lemma WAIT_SOF_no_sof p st i :
  fsm st = WAIT_SOF -> frame_sof i = false ->
  fsm (step p st i) = WAIT_SOF /\ frame_ready (control st i) = true /\
  write_of p st i = None.
Proof.
  intros Hw Hs. unfold write_of. simpl. unfold control. rewrite Hw. simpl.
  rewrite Hs, !andb_false_r, orb_true_r. done.
Qed.

Lemma WAIT_SOF_rest_of_frame p st ins :
  fsm st = WAIT_SOF -> Forall (fun j => frame_sof j = false) ins ->
  Forall (fun c => fsm c.1 = WAIT_SOF /\ frame_ready (control c.1 c.2) = true /\
                   write_of p c.1 c.2 = None) (cycles p st ins) /\
  fsm (run p st ins) = WAIT_SOF.
Proof.
  revert st. induction ins as [|i ins IH]; intros st Hw Hs; simpl.
  - split; [constructor|done].
  - apply Forall_cons_1 in Hs as [Hi Hs].
    destruct (WAIT_SOF_no_sof p st i Hw Hi) as (Hw' & Hr & Hwr).
    destruct (IH _ Hw' Hs) as [Hc Hend]. split; [|done].
    constructor; [|done]. done.
Qed.

(** C8. If no slot is Loaded in the cycle in which a start of frame
    arrives at an engine in WAIT_SOF, then in that cycle and in all the
    cycles of the frame (up to the next start of frame) the stream is
    ready, so that every word is taken, no write is issued, and the engine
    is in WAIT_SOF; it is still in WAIT_SOF when the frame is over. *)
Theorem frame_without_slot_is_dropped p st i ins
    (Hwait : fsm st = WAIT_SOF)
    (Hvalid : frame_valid i = true)
    (Hsof : frame_sof i = true)
    (Hnone : forall n s, slots st !! n = Some s -> Slot_address_valid s = false)
    (Hrest : Forall (fun j => frame_sof j = false) ins) :
  Forall (fun c => fsm c.1 = WAIT_SOF /\ frame_ready (control c.1 c.2) = true /\
                   (frame_valid c.2 = true -> consumed c.1 c.2 = true) /\
                   write_of p c.1 c.2 = None)
         (cycles p st (i :: ins)) /\
  writes p st (i :: ins) = [] /\
  fsm (run p st (i :: ins)) = WAIT_SOF.
Proof.
  assert (SlotArray_address_valid st = false) as Hv.
  { unfold SlotArray_address_valid, Array_get.
    destruct (slots st !! current_slot st) as [s|] eqn:Hs; simpl; [by eapply Hnone|done]. }
  assert (fsm (step p st i) = WAIT_SOF /\ frame_ready (control st i) = true /\
          write_of p st i = None) as (Hw' & Hr & Hwr).
  { unfold write_of. simpl. unfold control. rewrite Hwait. simpl. by rewrite Hv. }
  destruct (WAIT_SOF_rest_of_frame p _ ins Hw' Hrest) as [Hc Hend].
  assert (Forall (fun c => fsm c.1 = WAIT_SOF /\ frame_ready (control c.1 c.2) = true /\
                   write_of p c.1 c.2 = None) (cycles p st (i :: ins))) as Hall.
  { simpl. constructor; [done|done]. }
  split_and!.
  - eapply Forall_impl; [|exact Hall]. intros [s j]. simpl.
    intros (H1 & H2 & H3). split_and!; try done.
    intros Hj. unfold consumed. by rewrite Hj, H2.
  - unfold writes. clear -Hall. induction Hall as [|[s j] l (_ & _ & Hx) _ IH]; [done|].
    simpl in *. by rewrite Hx.
  - done.
Qed.

(** ** Scenarios *)

Lemma scenario_EOF_reachable : reachable port32 3 scenario_EOF.
Proof. apply reachable_run. constructor. apply reachable_run. constructor. Qed.

Lemma scenario_armed_reachable : reachable port32 3 scenario_armed.
Proof. apply reachable_run. constructor. Qed.

(** The arbitration scenario as an execution: slot 0 is selected first;
    when its frame is complete and it is Pending, slot 2 is selected. *)
Example arbitration_run :
  let st := run port32 (reset 3) arbitration_setup in
  let st' := run port32 st [pixel true 1; pixel true 1; idle; idle] in
  current_slot st = 0%nat /\
  status_storage <$> slots st = [LOADED; EMPTY; LOADED] /\
  status_storage <$> slots st' = [PENDING; EMPTY; LOADED] /\
  current_slot st' = 2%nat.
Proof. vm_compute. done. Qed.

Lemma arbitration_lowest_index_wins_witness :
  let st := run port32 (reset 3) [cpu (arm 1)] in
  change_slot st idle = true /\
  slots st !! 1%nat = Some {| status_storage := LOADED; address_storage := 0 |} /\
  current_slot (step port32 st idle) = 1%nat.
Proof.
  intros st. split_and!; [reflexivity|reflexivity|].
  eapply (proj1 arbitration_lowest_index_wins port32 st idle 1%nat).
  - reflexivity.
  - reflexivity.
  - reflexivity.
  - intros [|m] s' Hm; [|lia]. intros [= <-]. reflexivity.
Defined.

Lemma completion_marks_current_slot_only_witness :
  address_done (control scenario_EOF idle) = true /\
  slots (step port32 scenario_EOF idle)
  = [ {| status_storage := PENDING; address_storage := 0x1004 |}; no_slot; no_slot ].
Proof.
  split; [reflexivity|].
  destruct (completion_marks_current_slot_only port32 3 scenario_EOF idle)
    as (_ & -> & _ & _); [lia|apply scenario_EOF_reachable|reflexivity|].
  reflexivity.
Defined.

Lemma pending_only_after_drain_witness :
  slots scenario_EOF !! 0%nat
    = Some {| status_storage := LOADED; address_storage := 0x1000 |} /\
  slots (step port32 scenario_EOF idle) !! 0%nat
    = Some {| status_storage := PENDING; address_storage := 0x1004 |} /\
  fsm scenario_EOF = EOF /\ wdata_valid idle = false /\ 0%nat = current_slot scenario_EOF.
Proof.
  split_and!; [reflexivity|reflexivity|..];
    refine (_ (pending_only_after_drain port32 scenario_EOF idle 0%nat
                 {| status_storage := LOADED; address_storage := 0x1000 |}
                 {| status_storage := PENDING; address_storage := 0x1004 |}
                 eq_refl eq_refl eq_refl _ eq_refl));
    try discriminate; intros (H1 & H2 & H3); assumption.
Defined.

Lemma completion_status_is_exactly_pending_witness :
  address_done (control scenario_EOF idle) = true /\
  exists s',
    slots (run port32 (step port32 scenario_EOF idle) [idle; cpu (arm 1)])
      !! current_slot scenario_EOF = Some s' /\
    status_storage s' = 2 /\
    Z.testbit (status_storage s') 1 = true /\
    Slot_address_valid s' = false /\
    (forall cur, cur <> current_slot scenario_EOF ->
       arbitrate (slots (run port32 (step port32 scenario_EOF idle) [idle; cpu (arm 1)])) cur
       <> current_slot scenario_EOF).
Proof.
  split; [reflexivity|].
  apply (completion_status_is_exactly_pending port32 3 scenario_EOF idle [idle; cpu (arm 1)]).
  - lia.
  - apply scenario_EOF_reachable.
  - reflexivity.
  - repeat constructor.
Defined.

Lemma slot_register_authority_witness :
  address_done (control scenario_EOF idle) = true /\
  slots scenario_EOF !! current_slot scenario_EOF
    = Some {| status_storage := LOADED; address_storage := 0x1000 |} /\
  SlotArray_sync (address_done (control scenario_EOF idle))
                 (current_address scenario_EOF) (current_slot scenario_EOF)
                 (slots scenario_EOF) !! current_slot scenario_EOF
    = Some {| status_storage := PENDING;
              address_storage := current_address scenario_EOF |}.
Proof.
  split_and!; [vm_compute; reflexivity|vm_compute; reflexivity|].
  destruct (slot_register_authority port32 scenario_EOF idle) as (_ & _ & H & _).
  apply (H ltac:(vm_compute; reflexivity)
           {| status_storage := LOADED; address_storage := 0x1000 |}).
  vm_compute; reflexivity.
Defined.

(** C9, counterexample.  The completion of the scenario frame, a step of
    the producer with no bus write, replaces the target address 0x1000
    that the consumer had set for slot 0; and a bus write of 2 by the
    consumer makes slot 1 Pending while the engine waits in WAIT_SOF. *)
Lemma producer_overwrites_target_address :
  bus idle = None /\
  Slot_address (Array_get (slots scenario_EOF) 0) = 0x1000 /\
  Slot_address (Array_get (slots (step port32 scenario_EOF idle)) 0) = 0x1004 /\
  fsm (reset 3) = WAIT_SOF /\
  status_storage (Array_get (slots (reset 3)) 1) = EMPTY /\
  status_storage (Array_get (slots (step port32 (reset 3) (cpu (WrStatus 1 2)))) 1)
  = PENDING.
Proof. vm_compute. done. Qed.

Lemma address_reached_is_frame_end_witness :
  starts scenario_armed scenario_start /\
  address_done (control scenario_EOF idle) = true /\
  current_address scenario_EOF = 0x1004.
Proof.
  split_and!; [split; reflexivity|reflexivity|].
  apply (address_reached_is_frame_end port32 3 scenario_armed scenario_start
           scenario_words idle).
  - lia.
  - apply scenario_armed_reachable.
  - split; reflexivity.
  - unfold busy. vm_compute. repeat (constructor; [discriminate|]). constructor.
  - reflexivity.
Defined.

(** C7, counterexample.  In the scenario the writes go to 0x1000, 0x1001,
    0x1002 and 0x1003, and slot 0 becomes Pending with the address 0x1004 in
    its register: not the last address written, 0x1003. *)
Lemma scenario_publishes_0x1004 :
  let ins := scenario_setup ++ scenario_start :: scenario_words ++ [idle] in
  writes port32 (reset 3) ins
  = [(0x1000, 0xA); (0x1001, 0xB); (0x1002, 0xC); (0x1003, 0xD)] /\
  slots (run port32 (reset 3) ins) !! 0%nat
  = Some {| status_storage := PENDING; address_storage := 0x1004 |} /\
  addresses port32 (reset 3) ins = [0x1000; 0x1001; 0x1002; 0x1003] /\
  0x1004 <> 0x1003.
Proof. vm_compute. done. Qed.

(** C1, counterexample.  Slot 0 is armed and a frame starts; the consumer
    disarms slot 0 in the cycle of the first write.  In the next cycle no
    slot is Loaded, and the engine hands the word B to the transport at
    0x1001, inside the buffer of the slot that was disarmed. *)
Lemma write_into_disarmed_slot :
  let ins := scenario_setup
             ++ [scenario_start; with_bus (disarm 0) (pixel true 0xA)] in
  let st := run port32 (reset 3) ins in
  status_storage <$> slots st = [EMPTY; EMPTY; EMPTY] /\
  SlotArray_address_valid st = false /\
  write_of port32 st (pixel false 0xB) = Some (0x1001, 0xB).
Proof. vm_compute. done. Qed.

Lemma writes_only_into_loaded_slot_witness :
  let ins := scenario_setup ++ scenario_start :: scenario_words ++ [idle] in
  Forall (fun c => undisturbed c.1 c.2) (cycles port32 (reset 3) ins) /\
  Forall (fun c => is_Some (write_of port32 c.1 c.2) ->
                   fsm c.1 = TRANSFER_PIXELS /\
                   exists s, slots c.1 !! current_slot c.1 = Some s /\
                             Slot_address_valid s = true)
         (cycles port32 (reset 3) ins).
Proof.
  intros ins.
  assert (Forall (fun c => undisturbed c.1 c.2) (cycles port32 (reset 3) ins)) as Hq.
  { unfold undisturbed. vm_compute.
    repeat (constructor; [first [intros _; reflexivity | discriminate]|]).
    constructor. }
  split; [exact Hq|].
  exact (writes_only_into_loaded_slot port32 3 ins Hq).
Defined.

(** C3, counterexample.  A frame of 2 words at the base address
    0xFFFFFFFF of a port with 32 address bits completes (slot 0 becomes
    Pending) after writes at 0xFFFFFFFF and at 0: the address counter wraps
    and the second address is not base+1. *)
Lemma frame_wraps_at_top_of_memory :
  let ins := top_setup ++ pixel true 1 :: top_words in
  let base := 0xFFFFFFFF in
  SlotArray_address (run port32 (reset 3) top_setup) = base /\
  frame_size (run port32 (reset 3) top_setup) = 2 /\
  status_storage <$> slots (run port32 (reset 3) ins) = [PENDING; EMPTY; EMPTY] /\
  addresses port32 (reset 3) ins = [base; 0] /\
  addresses port32 (reset 3) ins <> [base; base + 1].
Proof. vm_compute. split_and!; done. Qed.

Lemma completed_frame_addresses_witness :
  starts scenario_armed scenario_start /\
  1 <= frame_size scenario_armed /\
  completes port32 (step port32 scenario_armed scenario_start)
            (scenario_words ++ [idle]) /\
  addresses port32 (step port32 scenario_armed scenario_start)
            (scenario_words ++ [idle])
  = (fun k => (SlotArray_address scenario_armed + k) mod 2 ^ Z.of_nat (aw port32))
    <$> seqZ 0 (frame_size scenario_armed).
Proof.
  assert (completes port32 (step port32 scenario_armed scenario_start)
                    (scenario_words ++ [idle])) as Hc.
  { split; [|reflexivity].
    unfold busy. vm_compute. repeat (constructor; [discriminate|]). constructor. }
  split_and!; [split; reflexivity|vm_compute; discriminate|exact Hc|].
  apply (completed_frame_addresses port32 3 scenario_armed scenario_start
           (scenario_words ++ [idle])).
  - lia.
  - apply scenario_armed_reachable.
  - split; reflexivity.
  - vm_compute; discriminate.
  - exact Hc.
Defined.

(** C4, the code at the failing input.  With the frame size register at
    its reset value 0 and slot 0 armed, the transfer starts with the word
    counter at 0: [last_word] is false, the first word is committed with 0
    words remaining, the counter wraps to 2^32-1 and the engine keeps
    writing.  On a port with 3 address bits the transfer ends only after
    the 8 words that fill the whole address space. *)
Theorem zero_frame_size_is_no_ceiling :
  let st := run port32 (reset 3) (zero_setup ++ [pixel true 1]) in
  frame_size st = 0 /\
  fsm st = TRANSFER_PIXELS /\
  mwords_remaining st = 0 /\
  last_word st = false /\
  write_of port32 st (pixel true 1) = Some (0x1000, 1) /\
  mwords_remaining (step port32 st (pixel true 1)) = 2 ^ 32 - 1 /\
  fsm (step port32 st (pixel true 1)) = TRANSFER_PIXELS /\
  addresses port32 st [pixel true 1; pixel false 2; pixel false 3]
  = [0x1000; 0x1001; 0x1002] /\
  (let ins := [cpu (arm 0); pixel true 1; pixel true 1]
              ++ replicate 7 (pixel false 2) ++ [idle] in
   frame_size (run port3 (reset 2) ins) = 0 /\
   status_storage <$> slots (run port3 (reset 2) ins) = [PENDING; EMPTY] /\
   addresses port3 (reset 2) ins = [0; 1; 2; 3; 4; 5; 6; 7]).
Proof. vm_compute. split_and!; done. Qed.

Lemma frame_without_slot_is_dropped_witness :
  let ins := [pixel false 2; with_bus (arm 0) (pixel false 3); pixel false 4] in
  fsm (reset 3) = WAIT_SOF /\
  Forall (fun j => frame_sof j = false) ins /\
  writes port32 (reset 3) (pixel true 1 :: ins) = [] /\
  fsm (run port32 (reset 3) (pixel true 1 :: ins)) = WAIT_SOF.
Proof.
  intros ins.
  assert (Forall (fun j => frame_sof j = false) ins) as Hr.
  { repeat constructor. }
  split_and!; [reflexivity|exact Hr|..];
    refine (_ (frame_without_slot_is_dropped port32 (reset 3) (pixel true 1) ins
                 eq_refl eq_refl eq_refl _ Hr));
    try (intros (_ & H1 & H2); assumption);
    intros [|[|[|n]]] s; simpl; intros [= <-]; reflexivity.
Defined.

(** * Further properties of the engine *)

Lemma run_app p st ins1 ins2 :
  run p st (ins1 ++ ins2) = run p (run p st ins1) ins2.
Proof. revert st. induction ins1 as [|i ins1 IH]; intros st; simpl; [done|apply IH]. Qed.

Lemma cycles_app p st ins1 ins2 :
  cycles p st (ins1 ++ ins2) = cycles p st ins1 ++ cycles p (run p st ins1) ins2.
Proof.
  revert st. induction ins1 as [|i ins1 IH]; intros st; simpl; [done|].
  by rewrite IH.
Qed.

Lemma busy_app p st ins1 ins2 :
  busy p st ins1 -> busy p (run p st ins1) ins2 -> busy p st (ins1 ++ ins2).
Proof. unfold busy. rewrite cycles_app. apply Forall_app_2. Qed.

(** X1. In every state of an execution the slot count is the configured
    one, [current_slot] is the index of a slot, the address counter, the
    word counter, the frame size and the slot addresses fit in [aw] bits,
    the slot statuses fit in 2 bits, and the word counter is 0 in EOF. *)
Theorem reachable_registers_in_range p nslots st
    (Hn : (0 < nslots)%nat)
    (Hreach : reachable p nslots st) :
  length (slots st) = nslots /\
  (current_slot st < length (slots st))%nat /\
  0 <= current_address st < 2 ^ Z.of_nat (aw p) /\
  0 <= mwords_remaining st < 2 ^ Z.of_nat (aw p) /\
  0 <= frame_size st < 2 ^ Z.of_nat (aw p) /\
  (forall n s, slots st !! n = Some s ->
     0 <= status_storage s < 4 /\ 0 <= address_storage s < 2 ^ Z.of_nat (aw p)) /\
  (fsm st = EOF -> mwords_remaining st = 0).
Proof.
  destruct (reachable_wf p nslots st Hn Hreach) as [Hlen Hcur Ha Hm Hf Hsl Heof].
  refine (conj Hlen (conj _ (conj Ha (conj Hm (conj Hf (conj _ Heof)))))).
  - by rewrite Hlen.
  - intros n s Hs. exact (Forall_lookup_1 _ _ _ _ Hsl Hs).
Qed.

Lemma reachable_registers_in_range_witness :
  length (slots scenario_EOF) = 3%nat /\
  (current_slot scenario_EOF < length (slots scenario_EOF))%nat /\
  0 <= current_address scenario_EOF < 2 ^ Z.of_nat (aw port32).
Proof.
  destruct (reachable_registers_in_range port32 3 scenario_EOF)
    as (H1 & H2 & H3 & _); [lia|apply scenario_EOF_reachable|].
  exact (conj H1 (conj H2 H3)).
Defined.

(** When every cycle commits a word, a transfer with [r] words remaining
    reaches EOF after exactly [r] cycles. *)
Lemma TRANSFER_progress p st ins :
  fsm st = TRANSFER_PIXELS ->
  in_range (aw p) (mwords_remaining st) ->
  Z.of_nat (length ins) = mwords_remaining st ->
  1 <= mwords_remaining st ->
  Forall commits ins ->
  busy p st ins /\ fsm (run p st ins) = EOF.
Proof.
  revert st. induction ins as [|i ins IH]; intros st Ht Hr Hlen H1 Hc.
  - simpl in Hlen. lia.
  - apply Forall_cons_1 in Hc as [Hi Hc].
    destruct (TRANSFER_commit p st i Ht Hi) as (_ & _ & Hr' & Hs').
    rewrite busy_cons. simpl length in Hlen. simpl run.
    destruct (mwords_remaining st =? 1) eqn:Hl.
    + apply Z.eqb_eq in Hl. assert (ins = []) as ->.
      { destruct ins; [done|]. simpl in Hlen. lia. }
      simpl. split; [|done]. split; [congruence|constructor].
    + apply Z.eqb_neq in Hl.
      assert (wrap (aw p) (mwords_remaining st - 1) = mwords_remaining st - 1) as Hw.
      { apply wrap_small. unfold in_range in *. lia. }
      destruct (IH (step p st i)) as [Hb He]; try done.
      * rewrite Hr'. apply wrap_in_range.
      * rewrite Hr', Hw. lia.
      * rewrite Hr', Hw. lia.
      * split; [|done]. split; [congruence|done].
Qed.

(** X2. Progress: once a transfer of [frame_size >= 1] words has started,
    [frame_size] cycles with valid data and a ready transport take the
    engine to EOF, and one more cycle with the write data channel drained
    raises [address_done] and returns it to WAIT_SOF: these cycles are a
    completed frame transfer. *)
Theorem frame_transfer_completes p nslots st i ins j
    (Hn : (0 < nslots)%nat)
    (Hreach : reachable p nslots st)
    (Hstart : starts st i)
    (Hsize : 1 <= frame_size st)
    (Hlen : Z.of_nat (length ins) = frame_size st)
    (Hcommit : Forall commits ins)
    (Hdrain : wdata_valid j = false) :
  fsm (run p (step p st i) ins) = EOF /\
  address_done (control (run p (step p st i) ins) j) = true /\
  completes p (step p st i) (ins ++ [j]).
Proof.
  pose proof (reachable_wf p nslots st Hn Hreach) as [_ _ _ _ Hf _ _].
  destruct (starts_seed p st i Hstart) as (Ht & _ & Hr & _).
  destruct (TRANSFER_progress p (step p st i) ins) as [Hb He]; try done.
  { by rewrite Hr. } { by rewrite Hr. } { by rewrite Hr. }
  assert (address_done (control (run p (step p st i) ins) j) = true) as Hd.
  { unfold control. rewrite He. simpl. by rewrite Hdrain. }
  split_and!; [done|done|]. split.
  - apply busy_app; [done|]. apply busy_cons. split; [congruence|constructor].
  - rewrite run_app. simpl. unfold control. rewrite He. simpl. by rewrite Hdrain.
Qed.

Lemma frame_transfer_completes_witness :
  starts scenario_armed scenario_start /\
  Z.of_nat (length scenario_words) = frame_size scenario_armed /\
  Forall commits scenario_words /\
  fsm (run port32 (step port32 scenario_armed scenario_start) scenario_words) = EOF.
Proof.
  assert (Forall commits scenario_words) as Hc by (repeat constructor).
  split_and!; [split; reflexivity|reflexivity|exact Hc|].
  refine (proj1 (frame_transfer_completes port32 3 scenario_armed scenario_start
                   scenario_words idle _ scenario_armed_reachable _ _ _ Hc _)).
  - lia.
  - split; reflexivity.
  - vm_compute; discriminate.
  - reflexivity.
  - reflexivity.
Defined.

Lemma TRANSFER_zero_addresses p st ins :
  fsm st = TRANSFER_PIXELS ->
  in_range (aw p) (current_address st) ->
  mwords_remaining st = 0 ->
  (1 <= aw p)%nat ->
  completes p st ins ->
  addresses p st ins
  = frame_addresses (aw p) (current_address st) (2 ^ Z.of_nat (aw p)).
Proof.
  intros Ht Ha H0 Hw. 
  assert (2 <= 2 ^ Z.of_nat (aw p)) as H2.
  { change 2 with (2 ^ 1) at 1. apply Z.pow_le_mono_r; lia. }
  revert st Ht Ha H0. induction ins as [|i ins IH]; intros st Ht Ha H0 [Hb Hc].
  - simpl in Hc. congruence.
  - apply busy_cons in Hb as [_ Hb]. simpl in Hc. rewrite addresses_cons.
    destruct (frame_valid i && sink_ready i) eqn:Hcw.
    + destruct (TRANSFER_commit p st i Ht Hcw) as (-> & Ha' & Hr' & Hs').
      rewrite H0 in Hs', Hr'. simpl in Hs'.
      assert (wrap (aw p) (0 - 1) = 2 ^ Z.of_nat (aw p) - 1) as Hm.
      { unfold wrap.
        rewrite <- (Z.mod_add (0 - 1) 1 (2 ^ Z.of_nat (aw p))) by lia.
        replace (0 - 1 + 1 * 2 ^ Z.of_nat (aw p)) with (2 ^ Z.of_nat (aw p) - 1) by lia.
        apply Z.mod_small. lia. }
      rewrite frame_addresses_cons by (done || lia). cbn [fst]. f_equal.
      rewrite (TRANSFER_addresses p (step p st i) ins); try done.
      * by rewrite Ha', Hr', Hm.
      * rewrite Ha'. apply wrap_in_range.
      * rewrite Hr'. apply wrap_in_range.
      * rewrite Hr', Hm. lia.
    + destruct (TRANSFER_stall p st i Ht Hcw) as (-> & Ha' & Hr' & Hs').
      rewrite IH; try done.
      * by rewrite Ha'.
      * by rewrite Ha'.
      * by rewrite Hr'.
Qed.

(** X3. With the frame size 0 the word counter is no bound: on a port
    with at least one address bit, every completed frame transfer that was
    started with [frame_size = 0] writes 2^aw words, one at each address of
    the address space, starting at the base address and wrapping around. *)
Theorem zero_frame_size_fills_address_space p nslots st i ins
    (Hn : (0 < nslots)%nat)
    (Hreach : reachable p nslots st)
    (Hstart : starts st i)
    (Hzero : frame_size st = 0)
    (Haw : (1 <= aw p)%nat)
    (Hdone : completes p (step p st i) ins) :
  addresses p (step p st i) ins
  = (fun k => (SlotArray_address st + k) mod 2 ^ Z.of_nat (aw p))
    <$> seqZ 0 (2 ^ Z.of_nat (aw p)) /\
  Z.of_nat (length (addresses p (step p st i) ins)) = 2 ^ Z.of_nat (aw p).
Proof.
  pose proof (reachable_wf p nslots st Hn Hreach) as [_ _ _ _ _ Hsl _].
  destruct (starts_seed p st i Hstart) as (Ht & Ha & Hr & _).
  assert (addresses p (step p st i) ins
          = frame_addresses (aw p) (SlotArray_address st) (2 ^ Z.of_nat (aw p))) as Heq.
  { rewrite TRANSFER_zero_addresses; try done.
    - by rewrite Ha.
    - rewrite Ha. apply (Array_get_wf p _ (current_slot st) Hsl).
    - by rewrite Hr. }
  split; [done|]. rewrite Heq. unfold frame_addresses.
  rewrite length_fmap, length_seqZ. lia.
Qed.

Lemma zero_frame_size_fills_address_space_witness :
  starts zero_armed (pixel true 1) /\
  frame_size zero_armed = 0 /\
  completes port3 (step port3 zero_armed (pixel true 1)) zero_words /\
  Z.of_nat (length (addresses port3 (step port3 zero_armed (pixel true 1)) zero_words))
  = 2 ^ Z.of_nat (aw port3).
Proof.
  assert (completes port3 (step port3 zero_armed (pixel true 1)) zero_words) as Hc.
  { split; [|reflexivity].
    unfold busy. vm_compute. repeat (constructor; [discriminate|]). constructor. }
  split_and!; [split; reflexivity|reflexivity|exact Hc|].
  refine (proj2 (zero_frame_size_fills_address_space port3 2 zero_armed (pixel true 1)
                   zero_words _ _ _ _ _ Hc)).
  - lia.
  - apply reachable_run. constructor.
  - split; reflexivity.
  - reflexivity.
  - simpl. lia.
Defined.

(** Outside of WAIT_SOF the start-of-frame flag of the stream is not
    read. *)
Lemma step_with_sof p st i b :
  fsm st <> WAIT_SOF ->
  step p st (with_sof b i) = step p st i /\
  write_of p st (with_sof b i) = write_of p st i /\
  consumed st (with_sof b i) = consumed st i.
Proof.
  intros Hne. unfold write_of, consumed, step, change_slot, control, memory_word.
  destruct (fsm st); [done| |]; simpl; done.
Qed.

(** X5. During a transfer the start-of-frame flags are ignored: replacing
    the flags of the cycles of a busy engine by any others changes neither
    the words written nor the state reached. *)
Theorem sof_ignored_during_transfer p st ins bs
    (Hbusy : busy p st ins)
    (Hlen : length bs = length ins) :
  run p st (zip_with with_sof bs ins) = run p st ins /\
  writes p st (zip_with with_sof bs ins) = writes p st ins /\
  busy p st (zip_with with_sof bs ins).
Proof.
  revert st bs Hbusy Hlen. induction ins as [|i ins IH]; intros st bs Hb Hlen.
  - destruct bs; [|done]. simpl. split_and!; [done|done|constructor].
  - destruct bs as [|b bs]; [done|]. simpl in Hlen.
    apply busy_cons in Hb as [Hne Hb].
    destruct (step_with_sof p st i b Hne) as (Hs & Hw & _).
    destruct (IH (step p st i) bs Hb) as (Hr & Hws & Hbs); [lia|].
    cbn [zip_with run]. rewrite !writes_cons, busy_cons, Hs, Hw, Hr, Hws.
    split_and!; done.
Qed.

Lemma sof_ignored_during_transfer_witness :
  let st := step port32 scenario_armed scenario_start in
  busy port32 st scenario_words /\
  writes port32 st (zip_with with_sof [false; true; true; true] scenario_words)
  = writes port32 st scenario_words.
Proof.
  intros st.
  assert (busy port32 st scenario_words) as Hb.
  { unfold busy. vm_compute. repeat (constructor; [discriminate|]). constructor. }
  split; [exact Hb|].
  refine (proj1 (proj2 (sof_ignored_during_transfer port32 st scenario_words
                          [false; true; true; true] Hb _))).
  reflexivity.
Defined.

Lemma consumed_words_cons p st i ins :
  consumed_words p st (i :: ins)
  = if consumed st i then memory_word p i :: consumed_words p (step p st i) ins
    else consumed_words p (step p st i) ins.
Proof. unfold consumed_words. simpl. by destruct (consumed st i). Qed.

Lemma busy_written_is_consumed p st ins :
  busy p st ins -> (writes p st ins).*2 = consumed_words p st ins.
Proof.
  revert st. induction ins as [|i ins IH]; intros st Hb; [done|].
  apply busy_cons in Hb as [Hne Hb].
  rewrite writes_cons, consumed_words_cons, <- (IH _ Hb).
  unfold write_of, consumed, control.
  destruct (fsm st); [done| |]; simpl.
  - by destruct (frame_valid i && sink_ready i).
  - by rewrite andb_false_r.
Qed.

(** X4. From the cycle that starts a transfer to the end of the
    transfer, the data words handed to the write transport are exactly the
    memory words of the stream words taken from upstream, in the same
    order: no word is taken without being written, none is written twice,
    and the word that starts the transfer is not taken in the start
    cycle. *)
Theorem written_words_are_consumed_words p st i ins
    (Hstart : starts st i)
    (Hbusy : busy p (step p st i) ins) :
  consumed st i = false /\
  (writes p st (i :: ins)).*2 = consumed_words p st (i :: ins) /\
  length (writes p st (i :: ins)) = length (consumed_words p st (i :: ins)).
Proof.
  destruct (starts_seed p st i Hstart) as (_ & _ & _ & Hv).
  destruct Hstart as [Hw Hn].
  assert (consumed st i = false /\ write_of p st i = None) as [Hc Hwr].
  { unfold consumed, write_of. revert Hn. unfold control. rewrite Hw. simpl.
    rewrite Hv. simpl. destruct (frame_sof i); [|done]. simpl.
    by rewrite andb_false_r. }
  assert ((writes p st (i :: ins)).*2 = consumed_words p st (i :: ins)) as Heq.
  { rewrite writes_cons, consumed_words_cons, Hc, Hwr.
    by apply busy_written_is_consumed. }
  split_and!; [done|done|]. by rewrite <- Heq, length_fmap.
Qed.

Lemma written_words_are_consumed_words_witness :
  starts scenario_armed scenario_start /\
  busy port32 (step port32 scenario_armed scenario_start) scenario_words /\
  (writes port32 scenario_armed (scenario_start :: scenario_words)).*2
  = consumed_words port32 scenario_armed (scenario_start :: scenario_words).
Proof.
  assert (busy port32 (step port32 scenario_armed scenario_start) scenario_words) as Hb.
  { unfold busy. vm_compute. repeat (constructor; [discriminate|]). constructor. }
  split_and!; [split; reflexivity|exact Hb|].
  refine (proj1 (proj2 (written_words_are_consumed_words port32 scenario_armed
                          scenario_start scenario_words _ Hb))).
  split; reflexivity.
Defined.

Lemma address_done_next st i :
  address_done (control st i) = true -> next_state (control st i) = WAIT_SOF.
Proof.
  unfold control. destruct (fsm st); simpl; try done.
  by destruct (negb (wdata_valid i)).
Qed.

Lemma quiet_step p st i :
  SlotArray_address_valid st = true -> quiet st i ->
  address_done (control st i) = false ->
  current_slot (step p st i) = current_slot st /\
  SlotArray_address_valid (step p st i) = true.
Proof.
  intros Hv Hq Hd.
  assert (current_slot (step p st i) = current_slot st) as Hcur.
  { simpl. unfold change_slot. by rewrite Hv, Hd. }
  split; [done|]. unfold SlotArray_address_valid, Array_get in *.
  rewrite Hcur, step_slots_lookup, Hd. simpl.
  destruct (slots st !! current_slot st) as [s|]; simpl in *; [|done].
  unfold Slot_address_valid in *. rewrite Slot_csr_status by done.
  by rewrite Slot_sync_idle.
Qed.

Lemma quiet_run p st ins :
  SlotArray_address_valid st = true ->
  Forall (fun c => quiet c.1 c.2) (cycles p st ins) ->
  Forall (fun c => address_done (control c.1 c.2) = false) (cycles p st ins) ->
  current_slot (run p st ins) = current_slot st /\
  SlotArray_address_valid (run p st ins) = true.
Proof.
  revert st. induction ins as [|i ins IH]; intros st Hv Hq Hd; [done|].
  simpl in Hq, Hd. apply Forall_cons_1 in Hq as [Hqi Hq].
  apply Forall_cons_1 in Hd as [Hdi Hd]. simpl in Hqi, Hdi.
  destruct (quiet_step p st i Hv Hqi Hdi) as [Hc Hv'].
  destruct (IH _ Hv' Hq Hd) as [Hc' Hv'']. simpl. split; [congruence|done].
Qed.

Lemma busy_no_address_done p st ins :
  busy p st ins -> fsm (run p st ins) <> WAIT_SOF ->
  Forall (fun c => address_done (control c.1 c.2) = false) (cycles p st ins).
Proof.
  revert st. induction ins as [|i ins IH]; intros st Hb Hend; [constructor|].
  apply busy_cons in Hb as [_ Hb]. simpl in Hend. simpl. constructor.
  - simpl. pose proof (busy_head p _ _ Hb Hend) as Hne.
    destruct (address_done (control st i)) eqn:Hd; [|done].
    apply address_done_next in Hd. simpl in Hne. congruence.
  - by apply IH.
Qed.

(** X6. The current slot is latched for a transfer: if the consumer does
    not write the status register of the current slot from the cycle that
    starts a transfer on, then as long as the transfer is in progress
    [current_slot] is the slot that was current at the start and it is
    still Loaded; so the completion marks the slot whose address seeded the
    address counter. *)
Theorem current_slot_latched_during_transfer p st i ins
    (Hstart : starts st i)
    (Hquiet : Forall (fun c => quiet c.1 c.2) (cycles p st (i :: ins)))
    (Hbusy : busy p (step p st i) ins)
    (Hend : fsm (run p (step p st i) ins) <> WAIT_SOF) :
  current_slot (run p (step p st i) ins) = current_slot st /\
  SlotArray_address_valid (run p (step p st i) ins) = true /\
  current_address (step p st i) = Slot_address (Array_get (slots st) (current_slot st)).
Proof.
  destruct (starts_seed p st i Hstart) as (Ht & Ha & _ & Hv).
  simpl in Hquiet. apply Forall_cons_1 in Hquiet as [Hqi Hq]. simpl in Hqi.
  assert (address_done (control st i) = false) as Hd.
  { destruct Hstart as [Hw _]. unfold control. by rewrite Hw. }
  destruct (quiet_step p st i Hv Hqi Hd) as [Hc Hv'].
  destruct (quiet_run p (step p st i) ins Hv' Hq) as [Hc' Hv''].
  { by apply busy_no_address_done. }
  split_and!; [congruence|done|done].
Qed.

Lemma current_slot_latched_during_transfer_witness :
  starts scenario_armed scenario_start /\
  current_slot scenario_EOF = current_slot scenario_armed /\
  SlotArray_address_valid scenario_EOF = true.
Proof.
  split; [split; reflexivity|].
  destruct (current_slot_latched_during_transfer port32 scenario_armed scenario_start
              scenario_words) as (H1 & H2 & _).
  - split; reflexivity.
  - unfold quiet. vm_compute. repeat (constructor; [reflexivity|]). constructor.
  - unfold busy. vm_compute. repeat (constructor; [discriminate|]). constructor.
  - vm_compute. discriminate.
  - exact (conj H1 H2).
Defined.

(** * DMA_poll *)

Example poll_frame_run :
  let s := poll_run port32 poll_gone (poll_pixel true 1 :: poll_words ++ [poll_idle]) in
  poll_writes port32 poll_gone (poll_pixel true 1 :: poll_words ++ [poll_idle])
  = [(0x2000, 1); (0x2001, 2); (0x2002, 3)] /\
  poll_fsm s = WAIT_SOF /\ last_count_holding s = 0x2003 /\ dma_go s = false /\
  dma_go poll_gone = true.
Proof. vm_compute. done. Qed.

Lemma poll_starts_seed p s i :
  poll_starts s i ->
  poll_fsm (poll_step p s i) = TRANSFER_PIXELS /\
  poll_current_address (poll_step p s i) = start_address s /\
  poll_mwords_remaining (poll_step p s i) = poll_frame_size s /\
  address_valid s = true /\ dma_go s = true /\
  poll_write_of p s i = None.
Proof.
  intros [Hw Hn]. unfold poll_write_of. simpl. unfold poll_control in *.
  rewrite Hw in *. simpl in *.
  destruct (address_valid s), (dma_go s), (pframe_sof i), (pframe_valid i); done.
Qed.

Lemma poll_busy_cons p s i ins :
  poll_busy p s (i :: ins)
  <-> poll_fsm s <> WAIT_SOF /\ poll_busy p (poll_step p s i) ins.
Proof.
  unfold poll_busy. simpl. split.
  - intros H. by apply Forall_cons_1 in H.
  - intros [Hne Hb]. by constructor.
Qed.

Lemma poll_writes_cons p s i ins :
  poll_writes p s (i :: ins)
  = match poll_write_of p s i with
    | Some w => w :: poll_writes p (poll_step p s i) ins
    | None => poll_writes p (poll_step p s i) ins
    end.
Proof. unfold poll_writes. simpl. by destruct (poll_write_of p s i). Qed.

(** Outside of WAIT_SOF the address generator and the FSM of [DMA_poll]
    make the step of those of [DMA]. *)
Lemma same_generator_step p s st i :
  same_generator s st -> poll_fsm s <> WAIT_SOF ->
  same_generator (poll_step p s i) (step p st (poll_in i)) /\
  write_of p st (poll_in i) = poll_write_of p s i.
Proof.
  intros (Hf & Ha & Hm) Hne.
  unfold same_generator, write_of, poll_write_of. simpl.
  unfold control, poll_control, last_word, poll_last_word.
  rewrite Hf, Ha, Hm. destruct (poll_fsm s); [done| |]; simpl; done.
Qed.

Lemma same_generator_run p s st ins :
  same_generator s st -> poll_busy p s ins ->
  same_generator (poll_run p s ins) (run p st (poll_in <$> ins)) /\
  writes p st (poll_in <$> ins) = poll_writes p s ins /\
  busy p st (poll_in <$> ins).
Proof.
  revert s st. induction ins as [|i ins IH]; intros s st Hsim Hb.
  - simpl. split_and!; [done|done|constructor].
  - apply poll_busy_cons in Hb as [Hne Hb].
    destruct (same_generator_step p s st i Hsim Hne) as [Hsim' Hw].
    destruct (IH _ _ Hsim' Hb) as (Hs & Hws & Hbs).
    cbn [fmap list_fmap poll_run run]. rewrite writes_cons, poll_writes_cons, busy_cons.
    rewrite Hw, Hws. split_and!; try done.
    destruct Hsim as [Hf _]. congruence.
Qed.

Lemma poll_wf_reset p : poll_wf p poll_reset.
Proof. split; simpl; try apply in_range_0. done. Qed.

Lemma poll_wf_step p s i : poll_wf p s -> poll_wf p (poll_step p s i).
Proof.
  intros [Ha Hm Hf Hs Hsn]. split; simpl.
  - unfold poll_control. destruct (poll_fsm s); simpl; [done| |done].
    destruct (pframe_valid i && psink_ready i); [apply wrap_in_range|done].
  - unfold poll_control. destruct (poll_fsm s); simpl; [done| |done].
    destruct (pframe_valid i && psink_ready i); [apply wrap_in_range|done].
  - destruct (pbus i) as [[]|]; try done. apply wrap_in_range.
  - destruct (pbus i) as [[]|]; try done. apply wrap_in_range.
  - unfold poll_control. destruct (poll_fsm s); simpl; try done.
    by destruct (negb (pwdata_valid i)).
Qed.

Lemma poll_reachable_wf p s : poll_reachable p s -> poll_wf p s.
Proof. induction 1; [apply poll_wf_reset|by apply poll_wf_step]. Qed.

Lemma poll_reachable_run p s ins :
  poll_reachable p s -> poll_reachable p (poll_run p s ins).
Proof.
  revert s. induction ins as [|i ins IH]; intros s Hs; simpl; [done|].
  apply IH. by constructor.
Qed.

(** X7. [DMA_poll]: for every completed frame transfer with a frame size
    of at least one word, the addresses written are [start_address],
    [start_address+1], ..., [start_address+frame_size-1] in [aw]-bit
    arithmetic, without repeats, and their number is the frame size. *)
Theorem poll_completed_frame_addresses p s i ins
    (Hreach : poll_reachable p s)
    (Hstart : poll_starts s i)
    (Hsize : 1 <= poll_frame_size s)
    (Hdone : poll_completes p (poll_step p s i) ins) :
  (poll_writes p (poll_step p s i) ins).*1
  = (fun k => (start_address s + k) mod 2 ^ Z.of_nat (aw p))
    <$> seqZ 0 (poll_frame_size s) /\
  NoDup (poll_writes p (poll_step p s i) ins).*1 /\
  Z.of_nat (length (poll_writes p (poll_step p s i) ins)) = poll_frame_size s.
Proof.
  destruct (poll_reachable_wf p s Hreach) as [_ _ Hf Hs _].
  destruct (poll_starts_seed p s i Hstart) as (Ht & Ha & Hr & _).
  destruct Hdone as [Hb He].
  destruct (same_generator_run p (poll_step p s i) (poll_view (poll_step p s i)) ins)
    as ((Hfin & _ & _) & Hw & Hbusy); [done|done|].
  assert ((poll_writes p (poll_step p s i) ins).*1
          = frame_addresses (aw p) (start_address s) (poll_frame_size s)) as Heq.
  { rewrite <- Hw. fold (addresses p (poll_view (poll_step p s i)) (poll_in <$> ins)).
    rewrite TRANSFER_addresses.
    - cbn [poll_view current_address mwords_remaining]. by rewrite Ha, Hr.
    - done.
    - cbn [poll_view current_address]. by rewrite Ha.
    - cbn [poll_view mwords_remaining]. by rewrite Hr.
    - cbn [poll_view mwords_remaining]. by rewrite Hr.
    - split; [done|]. by rewrite Hfin. }
  split_and!.
  - done.
  - rewrite Heq. by apply frame_addresses_NoDup.
  - rewrite <- (length_fmap fst), Heq. unfold frame_addresses.
    rewrite length_fmap, length_seqZ. lia.
Qed.

Lemma poll_gone_reachable : poll_reachable port32 poll_gone.
Proof. apply poll_reachable_run, poll_reachable_run. constructor. Qed.

Lemma poll_completed_frame_addresses_witness :
  poll_starts poll_gone (poll_pixel true 1) /\
  1 <= poll_frame_size poll_gone /\
  (poll_writes port32 (poll_step port32 poll_gone (poll_pixel true 1))
               (poll_words ++ [poll_idle])).*1
  = (fun k => (start_address poll_gone + k) mod 2 ^ Z.of_nat (aw port32))
    <$> seqZ 0 (poll_frame_size poll_gone).
Proof.
  split_and!; [split; reflexivity|vm_compute; discriminate|].
  refine (proj1 (poll_completed_frame_addresses port32 poll_gone (poll_pixel true 1)
                   (poll_words ++ [poll_idle]) poll_gone_reachable _ _ _)).
  - split; reflexivity.
  - vm_compute; discriminate.
  - split; [|reflexivity].
    unfold poll_busy. vm_compute. repeat (constructor; [discriminate|]). constructor.
Defined.

Lemma poll_no_go_step p s i : no_go i = true -> dma_go_re (poll_step p s i) = false.
Proof. unfold no_go. simpl. by destruct (pbus i) as [[]|]. Qed.

(** Only the strobe of [_dma_go] sets [dma_go]. *)
Lemma dma_go_stays_clear p s ins :
  dma_go s = false -> dma_go_re s = false ->
  Forall (fun j => no_go j = true) ins ->
  dma_go (poll_run p s ins) = false /\ dma_go_re (poll_run p s ins) = false.
Proof.
  revert s. induction ins as [|i ins IH]; intros s Hg Hre Hn; [done|].
  apply Forall_cons_1 in Hn as [Hi Hn]. simpl. apply IH; [|by apply poll_no_go_step|done].
  simpl. rewrite Hre, Hg. by destruct (poll_last_word s).
Qed.

Lemma poll_TRANSFER_clears_go p s ins :
  poll_fsm s = TRANSFER_PIXELS ->
  in_range (aw p) (poll_mwords_remaining s) ->
  1 <= poll_mwords_remaining s ->
  dma_go_re s = false ->
  Forall (fun j => no_go j = true) ins ->
  poll_completes p s ins ->
  dma_go (poll_run p s ins) = false /\ dma_go_re (poll_run p s ins) = false.
Proof.
  revert s. induction ins as [|i ins IH]; intros s Ht Hr H1 Hre Hn [Hb Hc].
  - simpl in Hc. congruence.
  - apply Forall_cons_1 in Hn as [Hi Hn].
    apply poll_busy_cons in Hb as [_ Hb]. simpl in Hc. simpl poll_run.
    pose proof (poll_no_go_step p s i Hi) as Hre'.
    destruct (poll_mwords_remaining s =? 1) eqn:Hl.
    + apply dma_go_stays_clear; [|done|done].
      simpl. unfold poll_last_word. by rewrite Hre, Hl.
    + apply Z.eqb_neq in Hl. apply IH; try done.
      * simpl. unfold poll_control, poll_last_word. rewrite Ht. simpl.
        apply Z.eqb_neq in Hl. rewrite Hl. by rewrite andb_false_r.
      * simpl. unfold poll_control. rewrite Ht. simpl.
        destruct (pframe_valid i && psink_ready i); [apply wrap_in_range|done].
      * simpl. unfold poll_control. rewrite Ht. simpl.
        destruct (pframe_valid i && psink_ready i); [|done].
        rewrite wrap_small; unfold in_range in *; lia.
Qed.

(** X8. [DMA_poll] captures one frame per go: if the consumer does not
    write [_dma_go] from the cycle that starts a transfer of at least one
    word to its end, then [dma_go] is clear when the engine is back in
    WAIT_SOF, and no stream word can start another transfer from there. *)
Theorem poll_go_is_one_shot p s i ins
    (Hreach : poll_reachable p s)
    (Hstart : poll_starts s i)
    (Hsize : 1 <= poll_frame_size s)
    (Hnogo : Forall (fun j => no_go j = true) (i :: ins))
    (Hdone : poll_completes p (poll_step p s i) ins) :
  dma_go (poll_run p (poll_step p s i) ins) = false /\
  forall j, poll_next_state (poll_control (poll_run p (poll_step p s i) ins) j) = WAIT_SOF.
Proof.
  destruct (poll_reachable_wf p s Hreach) as [_ _ Hf _ _].
  destruct (poll_starts_seed p s i Hstart) as (Ht & _ & Hr & _).
  apply Forall_cons_1 in Hnogo as [Hi Hn].
  destruct (poll_TRANSFER_clears_go p (poll_step p s i) ins) as [Hg _]; try done.
  { by rewrite Hr. } { by rewrite Hr. } { by apply poll_no_go_step. }
  split; [done|]. intros j. destruct Hdone as [_ Hw].
  unfold poll_control. rewrite Hw. simpl. by rewrite Hg, andb_false_r.
Qed.

Lemma poll_go_is_one_shot_witness :
  poll_starts poll_gone (poll_pixel true 1) /\
  dma_go poll_gone = true /\
  dma_go (poll_run port32 (poll_step port32 poll_gone (poll_pixel true 1))
                   (poll_words ++ [poll_idle])) = false.
Proof.
  split_and!; [split; reflexivity|reflexivity|].
  refine (proj1 (poll_go_is_one_shot port32 poll_gone (poll_pixel true 1)
                   (poll_words ++ [poll_idle]) poll_gone_reachable _ _ _ _)).
  - split; reflexivity.
  - vm_compute; discriminate.
  - repeat constructor.
  - split; [|reflexivity].
    unfold poll_busy. vm_compute. repeat (constructor; [discriminate|]). constructor.
Defined.

(** X9. [DMA_poll]: when a started transfer is in EOF and the write data
    channel is drained, [last_count_snapshot] is raised and
    [last_count_holding] takes the start address plus the frame size in
    [aw]-bit arithmetic, the address after the last one written. *)
Theorem poll_last_count_is_frame_end p s i ins j
    (Hreach : poll_reachable p s)
    (Hstart : poll_starts s i)
    (Hbusy : poll_busy p (poll_step p s i) ins)
    (Heof : poll_fsm (poll_run p (poll_step p s i) ins) = EOF)
    (Hdrain : pwdata_valid j = false) :
  last_count_snapshot (poll_control (poll_run p (poll_step p s i) ins) j) = true /\
  last_count_holding (poll_step p (poll_run p (poll_step p s i) ins) j)
  = wrap (aw p) (start_address s + poll_frame_size s).
Proof.
  destruct (poll_starts_seed p s i Hstart) as (Ht & Ha & Hr & _).
  assert (poll_reachable p (poll_run p (poll_step p s i) ins)) as Hre.
  { apply poll_reachable_run. by constructor. }
  destruct (poll_reachable_wf p _ Hre) as [Hca _ _ _ Hsn].
  destruct (same_generator_run p (poll_step p s i) (poll_view (poll_step p s i)) ins)
    as ((Hfin & Hafin & Hmfin) & _ & Hb); [done|done|].
  destruct (busy_run_sum p (poll_view (poll_step p s i)) (poll_in <$> ins) Hb)
    as [Hsum Hz].
  { rewrite Hfin, Heof. done. }
  { cbn [poll_view fsm]. congruence. }
  rewrite (Hz ltac:(congruence)), Z.add_0_r, Hafin in Hsum.
  cbn [poll_view current_address mwords_remaining] in Hsum.
  rewrite Ha, Hr, (wrap_small _ _ Hca) in Hsum.
  assert (last_count_snapshot_r (poll_run p (poll_step p s i) ins) = false) as Hsr.
  { destruct (last_count_snapshot_r _) eqn:E; [|done].
    specialize (Hsn eq_refl). congruence. }
  simpl. unfold poll_control. rewrite Heof. simpl. rewrite Hdrain, Hsr. simpl.
  done.
Qed.

Lemma poll_last_count_is_frame_end_witness :
  poll_starts poll_gone (poll_pixel true 1) /\
  poll_fsm (poll_run port32 (poll_step port32 poll_gone (poll_pixel true 1)) poll_words)
  = EOF /\
  last_count_holding
    (poll_step port32
       (poll_run port32 (poll_step port32 poll_gone (poll_pixel true 1)) poll_words)
       poll_idle)
  = wrap (aw port32) (start_address poll_gone + poll_frame_size poll_gone).
Proof.
  split_and!; [split; reflexivity|reflexivity|].
  refine (proj2 (poll_last_count_is_frame_end port32 poll_gone (poll_pixel true 1)
                   poll_words poll_idle poll_gone_reachable _ _ _ _)).
  - split; reflexivity.
  - unfold poll_busy. vm_compute. repeat (constructor; [discriminate|]). constructor.
  - reflexivity.
  - reflexivity.
Defined.

(** X10. [DMA_poll] holds the stream at a start of frame until the go:
    in WAIT_SOF with [address_valid] set and [dma_go] clear, for as long as
    the stream presents a start of frame and the consumer writes neither
    [address_valid] nor [_dma_go], [frame.ready] is low, nothing is written
    and the engine stays in WAIT_SOF. *)
Theorem poll_holds_stream_until_go p s ins
    (Hwait : poll_fsm s = WAIT_SOF)
    (Hvalid : address_valid s = true)
    (Hgo : dma_go s = false)
    (Hre : dma_go_re s = false)
    (Hins : Forall (fun j => pframe_sof j = true /\ keeps_gate j = true) ins) :
  Forall (fun c => poll_fsm c.1 = WAIT_SOF /\
                   poll_frame_ready (poll_control c.1 c.2) = false /\
                   poll_write_of p c.1 c.2 = None)
         (poll_cycles p s ins) /\
  poll_fsm (poll_run p s ins) = WAIT_SOF.
Proof.
  revert s Hwait Hvalid Hgo Hre.
  induction ins as [|i ins IH]; intros s Hwait Hvalid Hgo Hre; simpl.
  - split; [constructor|done].
  - apply Forall_cons_1 in Hins as [[Hsof Hk] Hins].
    assert (poll_fsm (poll_step p s i) = WAIT_SOF) as Hw'.
    { simpl. unfold poll_control. rewrite Hwait. simpl. by rewrite Hgo, andb_false_r. }
    destruct (IH Hins (poll_step p s i)) as [Hc Hend]; try done.
    + simpl. revert Hk. unfold keeps_gate. by destruct (pbus i) as [[]|].
    + simpl. rewrite Hre, Hgo. by destruct (poll_last_word s).
    + simpl. revert Hk. unfold keeps_gate. by destruct (pbus i) as [[]|].
    + split; [|done]. constructor; [|done]. simpl.
      unfold poll_write_of, poll_control. rewrite Hwait. simpl.
      by rewrite Hvalid, Hsof.
Qed.

Lemma poll_holds_stream_until_go_witness :
  let ins := [poll_pixel true 1; poll_pixel true 1; poll_pixel true 1] in
  address_valid poll_armed = true /\ dma_go poll_armed = false /\
  poll_fsm (poll_run port32 poll_armed ins) = WAIT_SOF.
Proof.
  intros ins. split_and!; [reflexivity|reflexivity|].
  refine (proj2 (poll_holds_stream_until_go port32 poll_armed ins _ _ _ _ _));
    try reflexivity.
  repeat constructor.
Defined.

(** * HDMIIn: start-of-frame tagging *)

Lemma offered_cons s i ins :
  offered s (i :: ins)
  = if hi0_valid i
    then (fifo_sink_sof s, fifo_sink_pixels i) :: offered (pix_step s i) ins
    else offered (pix_step s i) ins.
Proof. unfold offered. simpl. by destruct (hi0_valid i). Qed.

Lemma offered_untagged s ins :
  fifo_sink_sof s = false -> same_frame s ins ->
  (offered s ins).*1 = replicate (length (offered s ins)) false.
Proof.
  revert s. induction ins as [|i ins IH]; intros s Hs Hf; [done|].
  unfold same_frame in Hf. simpl in Hf. apply Forall_cons_1 in Hf as [Hi Hf].
  simpl in Hi. rewrite offered_cons.
  assert (fifo_sink_sof (pix_step s i) = false) as Hs'.
  { simpl. rewrite Hi. by destruct (hi0_valid i). }
  destruct (hi0_valid i).
  - rewrite fmap_cons, length_cons, (IH _ Hs' Hf).
    cbn [fst replicate]. by rewrite Hs.
  - apply (IH _ Hs' Hf).
Qed.

Lemma offered_length s ins : (length (offered s ins) <= length ins)%nat.
Proof.
  revert s. induction ins as [|i ins IH]; intros s; [done|].
  rewrite offered_cons. specialize (IH (pix_step s i)).
  destruct (hi0_valid i); simpl; lia.
Qed.

Lemma offered_tagged s ins :
  fifo_sink_sof s = true -> same_frame s ins ->
  (offered s ins).*1
  = take (length (offered s ins)) (true :: replicate (length ins) false).
Proof.
  revert s. induction ins as [|i ins IH]; intros s Hs Hf; [done|].
  unfold same_frame in Hf. simpl in Hf. apply Forall_cons_1 in Hf as [Hi Hf].
  simpl in Hi. rewrite offered_cons.
  pose proof (offered_length (pix_step s i) ins) as Hle.
  destruct (hi0_valid i) eqn:Hv.
  - assert (fifo_sink_sof (pix_step s i) = false) as Hs'.
    { simpl. by rewrite Hi, Hv. }
    rewrite fmap_cons, length_cons. cbn [fst take]. rewrite Hs. f_equal.
    rewrite (offered_untagged _ _ Hs' Hf), take_replicate. f_equal.
    cbn [length]. lia.
  - assert (fifo_sink_sof (pix_step s i) = true) as Hs'.
    { simpl. by rewrite Hi, Hv. }
    rewrite (IH _ Hs' Hf), length_cons.
    destruct (length (offered (pix_step s i) ins)) as [|n] eqn:En; [done|].
    cbn [take]. f_equal. rewrite !take_replicate. f_equal. lia.
Qed.

Lemma offered_pixels_range s ins :
  Forall (fun w => 0 <= w.2 < 2 ^ 30) (offered s ins).
Proof.
  revert s. induction ins as [|i ins IH]; intros s; [constructor|].
  rewrite offered_cons. destruct (hi0_valid i); [|apply IH].
  constructor; [|apply IH]. simpl. unfold fifo_sink_pixels, Cat.
  rewrite Z.shiftl_0_l, Z.lor_0_r. apply (wrap_in_range 30).
Qed.

(** X11. After a rising edge of [vsync], and until the next one, the
    first word presented to the FIFO carries [sof = 1] and every later word
    carries [sof = 0]; the pixels of each word are the 30 bits of [sdout]
    with two zero bits above. *)
Theorem first_word_of_frame_is_tagged s i ins
    (Hrise : new_frame s i = true)
    (Hframe : same_frame (pix_step s i) ins) :
  (offered (pix_step s i) ins).*1
  = take (length (offered (pix_step s i) ins)) (true :: replicate (length ins) false) /\
  Forall (fun w => 0 <= w.2 < 2 ^ 30) (offered (pix_step s i) ins).
Proof.
  split; [|apply offered_pixels_range].
  apply offered_tagged; [|done]. simpl. by rewrite Hrise.
Qed.


Lemma first_word_of_frame_is_tagged_witness :
  let i := {| hi0_vsync := true; hi0_valid := false; sdout := 0 |} in
  new_frame pix_reset i = true /\
  same_frame (pix_step pix_reset i) pix_frame /\
  (offered (pix_step pix_reset i) pix_frame).*1 = [true; false; false].
Proof.
  intros i.
  assert (same_frame (pix_step pix_reset i) pix_frame) as Hf.
  { unfold same_frame. vm_compute. repeat (constructor; [reflexivity|]). constructor. }
  split_and!; [reflexivity|exact Hf|].
  exact (proj1 (first_word_of_frame_is_tagged pix_reset i pix_frame eq_refl Hf)).
Defined.

(** * The engine without an armed slot, and the word that starts a frame *)

(** X12. The word that starts a transfer is not lost: it is not taken in
    the start cycle, and when the stream still presents it in the next
    cycle with the transport ready, it is taken and written at the base
    address of the current slot. *)
Theorem sof_word_is_written_at_base p st i
    (Hstart : starts st i)
    (Hready : sink_ready i = true) :
  consumed st i = false /\
  write_of p st i = None /\
  consumed (step p st i) i = true /\
  write_of p (step p st i) i = Some (SlotArray_address st, memory_word p i).
Proof.
  destruct (starts_seed p st i Hstart) as (Ht & Ha & _ & Hv).
  destruct Hstart as [Hw Hn].
  assert (frame_sof i = true /\ frame_valid i = true) as [Hs Hfv].
  { revert Hn. unfold control. rewrite Hw. simpl. rewrite Hv.
    by destruct (frame_sof i), (frame_valid i). }
  assert (consumed st i = false /\ write_of p st i = None) as [Hc Hwr].
  { unfold consumed, write_of, control. rewrite Hw. simpl.
    by rewrite Hv, Hs, Hfv. }
  split_and!; [done|done| |].
  - unfold consumed. generalize dependent (step p st i). intros st' Ht _.
    unfold control. rewrite Ht. simpl. by rewrite Hfv, Hready.
  - unfold write_of. rewrite Ha. generalize dependent (step p st i).
    intros st' Ht _. unfold control. rewrite Ht. simpl. by rewrite Hfv, Hready.
Qed.

Lemma sof_word_is_written_at_base_witness :
  starts scenario_armed scenario_start /\
  write_of port32 (step port32 scenario_armed scenario_start) scenario_start
  = Some (SlotArray_address scenario_armed, memory_word port32 scenario_start).
Proof.
  split; [split; reflexivity|].
  refine (proj2 (proj2 (proj2 (sof_word_is_written_at_base port32 scenario_armed
                                 scenario_start _ _)))).
  - split; reflexivity.
  - reflexivity.
Defined.

Lemma none_loaded_step p st i :
  none_loaded (slots st) -> arms_nothing i = true ->
  address_done (control st i) = false ->
  none_loaded (slots (step p st i)).
Proof.
  intros Hno Ha Hd n s. rewrite step_slots_lookup, Hd. simpl.
  destruct (slots st !! n) as [s0|] eqn:Hn; [|done]. simpl. intros [= <-].
  rewrite Slot_sync_idle. specialize (Hno n s0 Hn).
  revert Ha. unfold arms_nothing, Slot_csr.
  destruct (bus i) as [[m v|m v|v]|]; try done.
  - destruct (Nat.eqb m n); [|done]. unfold Slot_address_valid.
    cbn [status_storage]. intros Hb. by apply negb_true_iff in Hb.
  - by destruct (Nat.eqb m n).
Qed.

(** X13. Without a Loaded slot the engine does not touch memory: from a
    state in WAIT_SOF in which no slot is Loaded, for as long as the
    consumer writes no status with bit 0 set, whatever the stream and the
    transport do, the engine stays in WAIT_SOF, the stream is ready in
    every cycle, no word is written, [current_slot] does not move and no
    slot register changes but by the bus writes. *)
Theorem idle_without_loaded_slot p st ins
    (Hwait : fsm st = WAIT_SOF)
    (Hnone : none_loaded (slots st))
    (Hins : Forall (fun j => arms_nothing j = true) ins) :
  Forall (fun c => fsm c.1 = WAIT_SOF /\
                   frame_ready (control c.1 c.2) = true /\
                   write_of p c.1 c.2 = None /\
                   current_slot c.1 = current_slot st)
         (cycles p st ins) /\
  writes p st ins = [] /\
  fsm (run p st ins) = WAIT_SOF /\
  current_slot (run p st ins) = current_slot st /\
  none_loaded (slots (run p st ins)).
Proof.
  revert st Hwait Hnone. induction ins as [|i ins IH]; intros st Hwait Hnone.
  - simpl. split_and!; [constructor|done..].
  - apply Forall_cons_1 in Hins as [Hi Hins].
    assert (SlotArray_address_valid st = false) as Hv.
    { unfold SlotArray_address_valid, Array_get.
      destruct (slots st !! current_slot st) as [s|] eqn:Hs; simpl;
        [by eapply Hnone|done]. }
    assert (address_done (control st i) = false) as Hd.
    { unfold control. by rewrite Hwait. }
    assert (fsm (step p st i) = WAIT_SOF) as Hw'.
    { simpl. unfold control. rewrite Hwait. simpl. by rewrite Hv. }
    assert (current_slot (step p st i) = current_slot st) as Hc'.
    { simpl. destruct (change_slot st i); [|done]. by apply arbitrate_none. }
    assert (write_of p st i = None) as Hwr.
    { unfold write_of, control. by rewrite Hwait. }
    pose proof (none_loaded_step p st i Hnone Hi Hd) as Hnone'.
    destruct (IH Hins (step p st i) Hw' Hnone') as (Hall & Hws & Hend & Hcur & Hno).
    rewrite writes_cons, Hwr. cbn [cycles run]. split_and!; try done.
    + constructor.
      * simpl. split_and!; try done. unfold control. rewrite Hwait. simpl.
        by rewrite Hv.
      * eapply Forall_impl; [|exact Hall]. intros [s j]. simpl.
        intros (H1 & H2 & H3 & H4). split_and!; [done|done|done|].
        by rewrite H4.
    + by rewrite Hcur.
Qed.

Lemma idle_without_loaded_slot_witness :
  let ins := [pixel true 1; cpu (WrAddress 0 0x1000); cpu (WrStatus 1 2);
              pixel true 2; pixel false 3] in
  Forall (fun j => arms_nothing j = true) ins /\
  writes port32 (reset 3) ins = [] /\
  fsm (run port32 (reset 3) ins) = WAIT_SOF.
Proof.
  intros ins.
  assert (Forall (fun j => arms_nothing j = true) ins) as Hins.
  { repeat constructor. }
  split; [exact Hins|].
  destruct (idle_without_loaded_slot port32 (reset 3) ins) as (_ & H1 & H2 & _).
  - reflexivity.
  - intros [|[|[|n]]] s; simpl; intros [= <-]; reflexivity.
  - exact Hins.
  - exact (conj H1 H2).
Defined.
